(** * ykman.rpc: the RPC node tree and the command pipeline

    A shallow embedding of [ykman/rpc/__init__.py]:
    - the enumerating nodes [ReadersNode] and [DevicesNode], the
      [DeviceNode] and the [ConnectionNode], as state-passing functions over
      an explicit [World] that stands for the hardware and keeps a trace of
      the external calls that were made;
    - the two threads of [process] (the receiver [_handle_incoming] and the
      dispatch loop) as a labelled interleaving semantics over the shared
      [Event] flag, the capacity-one [Queue] and the transport. *)

From Stdlib Require Import ZArith Lia Ascii String.
From Stdlib.Strings Require Import Byte.
From stdpp Require Import base option list strings gmap pretty.

Open Scope string_scope.
Open Scope list_scope.
Set Warnings "-register-all".

(** ** Python values, exceptions and results *)

Module Py.

(** The JSON-like objects travelling in requests and responses. *)
Inductive value : Type :=
| VNone
| VBool (b : bool)
| VInt (z : Z)
| VStr (s : string)
| VList (l : list value)
| VDict (l : list (string * value)).

(** Exceptions, by class, with the text [str(e)] gives for them: the
    message an [Exception], a [ValueError] or an [OSError] was built from,
    and for a [KeyError] the repr of its key, as the interpreter prints
    it. *)
Inductive exn : Type :=
| Exception (msg : string)
| ValueError (msg : string)
| KeyError (shown : string)
| OSError (msg : string).

(** [str(e)] *)
Definition str (e : exn) : string :=
  match e with
  | Exception m | ValueError m | KeyError m | OSError m => m
  end.

Inductive result (A : Type) : Type :=
| Ok (a : A)
| Raise (e : exn).
Arguments Ok {A} a.
Arguments Raise {A} e.

(** [not d] for a dict: only the empty dict is falsy. *)
Definition truthy (d : gmap string value) : bool :=
  negb (bool_decide (size d = 0)).

(** [d.pop(k)] and [d.pop(k, default)]: the value and the dict left. *)
Definition pop (k : string) (d : gmap string value)
  : option value * gmap string value :=
  (d !! k, delete k d).

Definition pop_default (k : string) (dflt : value) (d : gmap string value)
  : value * gmap string value :=
  (default dflt (d !! k), delete k d).

(** [bytes.hex()]: two lower-case hexadecimal digits per byte. *)
Definition hex_digit (n : N) : ascii :=
  match n with
  | 0 => "0" | 1 => "1" | 2 => "2" | 3 => "3" | 4 => "4" | 5 => "5"
  | 6 => "6" | 7 => "7" | 8 => "8" | 9 => "9" | 10 => "a" | 11 => "b"
  | 12 => "c" | 13 => "d" | 14 => "e" | _ => "f"
  end%N%char.

Definition hex (bs : list byte) : string :=
  foldr (fun b s =>
           String (hex_digit (Byte.to_N b / 16))
             (String (hex_digit (Byte.to_N b mod 16)) s)) "" bs.

(** [needle in hay] on strings. *)
Definition contains (needle hay : string) : bool :=
  match String.index 0 needle hay with Some _ => true | None => false end.

End Py.
Import Py.

Abbreviation dict := (gmap string value).

(** ** The hardware, as the node tree sees it *)

Inductive ConnKind : Type :=
| SmartCardConnection
| OtpConnection
| FidoConnection.

Record PID : Type := { pid_value : Z; get_type : option string }.

Record DeviceInfo : Type := { version : Z * Z * Z; serial : option Z }.

(** An open connection: a handle and the kind it was opened for. *)
Record Connection : Type := { conn_id : nat; conn_kind : ConnKind }.

(** A device object with the two methods the nodes call on it. Of a reader
    the nodes use [d.reader.name] and [d.reader.name.lower()]; the second is
    what the interpreter's [str.lower] makes of the first, with case tables
    that are not modelled, and is kept beside it. *)
Record Device : Type := {
  pid : PID;
  reader_name : string;
  reader_name_lower : string;
  supports_connection : ConnKind -> bool;
  device_open : ConnKind -> result Connection
}.

(** The external calls a node can make, as they are recorded. *)
Inductive Call : Type :=
| CScanDevices
| CListAllDevices
| CListDevices
| CUrandom (n : nat)
| COpen (k : ConnKind)
| CConnectToDevice (serial : Z) (kinds : list ConnKind)
| CReadInfo (conn : nat)
| CClose (conn : nat).

(** The state of the outside world at one moment, the answers its
    providers would give, and the calls made so far. *)
Record World : Type := {
  usb_state : Z;
  usb_devices : list (Device * DeviceInfo);
  pcsc_devices : list Device;
  entropy : nat -> byte;
  entropy_used : nat;
  namer : DeviceInfo -> option string -> string;
  by_serial : Z -> list ConnKind -> result Connection;
  identity : Connection -> result DeviceInfo;
  trace : list Call
}.

Definition record (c : Call) (w : World) : World :=
  {| usb_state := usb_state w; usb_devices := usb_devices w;
     pcsc_devices := pcsc_devices w; entropy := entropy w;
     entropy_used := entropy_used w; namer := namer w;
     by_serial := by_serial w; identity := identity w;
     trace := trace w ++ [c] |}.

(** Modelled from the spec: [ykman.device.scan_devices] is not part of the
    sources at hand; the Device Provider's [scanState() -> fingerprint].
    The function returns the fingerprint, the component [[1]] of the
    original's pair. *)
Definition scan_devices (w : World) : Z * World :=
  (usb_state w, record CScanDevices w).

(** Modelled from the spec: [ykman.device.list_all_devices], the Device
    Provider's [enumerate() -> list(backing-object, summary)]. *)
Definition list_all_devices (w : World) : list (Device * DeviceInfo) * World :=
  (usb_devices w, record CListAllDevices w).

(** Modelled from the spec: [ykman.pcsc.list_devices], the Reader Provider's
    enumeration of the attached smart-card readers. *)
Definition list_devices (w : World) : list Device * World :=
  (pcsc_devices w, record CListDevices w).

(** Modelled from the spec: [ykman.pcsc.YK_READER_NAME], the lower-case
    name fragment by which a reader that is itself a key is recognised. *)
Definition YK_READER_NAME : string := "yubico yubikey".

(** Modelled from the spec: [ykman.device.get_name], the display name of a
    device, an answer of the provider. *)
Definition get_name (w : World) (info : DeviceInfo) (key_type : option string)
  : string :=
  namer w info key_type.

(** [os.urandom(n)]: the next [n] bytes of the entropy source. *)
Definition urandom (n : nat) (w : World) : list byte * World :=
  (map (entropy w) (seq (entropy_used w) n),
   {| usb_state := usb_state w; usb_devices := usb_devices w;
      pcsc_devices := pcsc_devices w; entropy := entropy w;
      entropy_used := entropy_used w + n; namer := namer w;
      by_serial := by_serial w; identity := identity w;
      trace := trace w ++ [CUrandom n] |}).

(** Modelled from the spec: the Connection Provider's [open(kind)], the
    method [open_connection] of a device object. *)
Definition open_connection (dev : Device) (k : ConnKind) (w : World)
  : result Connection * World :=
  (device_open dev k, record (COpen k) w).

(** Modelled from the spec: [ykman.device.connect_to_device], the
    Connection Provider's [reconnectBySerial(serial, kinds)]; the function
    returns the connection, the component [[0]] of the original's triple. *)
Definition connect_to_device (serial : Z) (kinds : list ConnKind) (w : World)
  : result Connection * World :=
  (by_serial w serial kinds, record (CConnectToDevice serial kinds) w).

(** Modelled from the spec: [ykman.device.read_info], the Identity Reader's
    [readSummary(connection) -> {version, serial, ...}]. *)
Definition read_info (p : option PID) (conn : Connection) (w : World)
  : result DeviceInfo * World :=
  (identity w conn, record (CReadInfo (conn_id conn)) w).

(** Modelled from the spec: "a Connection supports [close()]"; the
    connection classes are not part of the sources at hand. A call releases
    the handle, and is recorded as such. *)
Definition connection_close (conn : Connection) (w : World) : World :=
  record (CClose (conn_id conn)) w.

(** How many times a handle has been released. *)
Definition is_close (id : nat) (c : Call) : bool :=
  match c with CClose j => Nat.eqb id j | _ => false end.

Definition releases (id : nat) (w : World) : nat :=
  length (List.filter (is_close id) (trace w)).

(** ** The nodes *)

Definition value_of_version (v : Z * Z * Z) : value :=
  let '(a, b, c) := v in VList [VInt a; VInt b; VInt c].

Definition value_of_serial (s : option Z) : value :=
  match s with Some z => VInt z | None => VNone end.

(** [{"version": info.version, "serial": info.serial}] *)
Definition info_snapshot (info : DeviceInfo) : dict :=
  <["version" := value_of_version (version info)]>
    (<["serial" := value_of_serial (serial info)]> ∅).

Module RpcNode.
(** Modelled from the spec: [ykman.rpc.base.RpcNode.close] is not part of
    the sources at hand; "default implementation is a no-op". *)
Definition close (w : World) : World := w.
End RpcNode.

Module ReadersNode.

Record t : Type := {
  _state : gset string;
  _readers : gmap string dict;
  _reader_mapping : gmap string Device
}.

(** [__init__] *)
Definition init : t :=
  {| _state := ∅; _readers := ∅; _reader_mapping := ∅ |}.

(** The comprehension of [list_children]: the readers that are not keys. *)
Definition visible (ds : list Device) : list Device :=
  List.filter
    (fun d => negb (contains YK_READER_NAME (reader_name_lower d))) ds.

(** [{d.reader.name for d in devices}] *)
Definition names (ds : list Device) : gset string :=
  list_to_set (map reader_name ds).

(** One turn of the [for] loop. *)
Definition add_reader
    (acc : gmap string dict * gmap string Device * World) (device : Device)
  : gmap string dict * gmap string Device * World :=
  let '(readers, mapping, w) := acc in
  let '(bs, w1) := urandom 4 w in
  let dev_id := hex bs in
  (<[dev_id := <["name" := VStr (reader_name device)]> ∅]> readers,
   <[dev_id := device]> mapping, w1).

Definition list_children (self : t) (w : World)
  : gmap string dict * t * World :=
  let '(all, w1) := list_devices w in
  let devices := visible all in
  let state := names devices in
  if decide (_state self = state) then (_readers self, self, w1)
  else
    let '(readers, mapping, w2) := foldl add_reader (∅, ∅, w1) devices in
    (readers,
     {| _state := state; _readers := readers; _reader_mapping := mapping |},
     w2).

End ReadersNode.

Module DevicesNode.

Record t : Type := {
  _state : Z;
  _devices : gmap string dict;
  _device_mapping : gmap string (Device * DeviceInfo)
}.

(** [__init__] *)
Definition init : t :=
  {| _state := 0; _devices := ∅; _device_mapping := ∅ |}.

(** [dict(pid=dev.pid, name=name)] *)
Definition descriptor (dev : Device) (name : string) : dict :=
  <["pid" := VInt (pid_value (pid dev))]> (<["name" := VStr name]> ∅).

(** One turn of the [for] loop: the identifier is the decimal text of the
    number of entries so far. *)
Definition add_device (w : World)
    (acc : gmap string dict * gmap string (Device * DeviceInfo))
    (entry : Device * DeviceInfo)
  : gmap string dict * gmap string (Device * DeviceInfo) :=
  let '(devices, mapping) := acc in
  let '(dev, info) := entry in
  let dev_id : string := pretty (size devices) in
  let mapping' := <[dev_id := (dev, info)]> mapping in
  let name := get_name w info (get_type (pid dev)) in
  (<[dev_id := descriptor dev name]> devices, mapping').

Definition list_children (self : t) (w : World)
  : gmap string dict * t * World :=
  let '(state, w1) := scan_devices w in
  if decide (state = _state self) then (_devices self, self, w1)
  else
    let '(all, w2) := list_all_devices w1 in
    let '(devices, mapping) := foldl (add_device w2) (∅, ∅) all in
    (devices,
     {| _state := state; _devices := devices; _device_mapping := mapping |},
     w2).

End DevicesNode.

Module ConnectionNode.

Record t : Type := { _connection : Connection }.

(** [close]: the inherited [close], then the connection's own. *)
Definition close (self : t) (w : World) : World :=
  let w1 := RpcNode.close w in
  connection_close (_connection self) w1.

(** [get_data] *)
Definition get_data (self : t) (w : World) : result dict * World :=
  match read_info None (_connection self) w with
  | (Ok info, w1) => (Ok (info_snapshot info), w1)
  | (Raise e, w1) => (Raise e, w1)
  end.

End ConnectionNode.

Module DeviceNode.

Record t : Type := { _device : Device; _info : option DeviceInfo }.

(** [self._info and self._info.serial]: an info object is always truthy,
    a serial is truthy when it is present and not zero. *)
Definition known_serial (self : t) : option Z :=
  match _info self with
  | Some info =>
      match serial info with
      | Some z => if decide (z = 0%Z) then None else Some z
      | None => None
      end
  | None => None
  end.

Definition _create_connection (self : t) (conn_type : ConnKind) (w : World)
  : result ConnectionNode.t * World :=
  if supports_connection (_device self) conn_type then
    match open_connection (_device self) conn_type w with
    | (Ok connection, w1) =>
        (Ok {| ConnectionNode._connection := connection |}, w1)
    | (Raise e, w1) => (Raise e, w1)
    end
  else
    match known_serial self with
    | Some s =>
        match connect_to_device s [conn_type] w with
        | (Ok connection, w1) =>
            (Ok {| ConnectionNode._connection := connection |}, w1)
        | (Raise e, w1) => (Raise e, w1)
        end
    | None => (Raise (ValueError "Unsupported connection type"), w)
    end.

Definition ccid := fun self => _create_connection self SmartCardConnection.
Definition otp := fun self => _create_connection self OtpConnection.
Definition fido := fun self => _create_connection self FidoConnection.

(** The [for] loop of [get_data] over the kinds still to be tried; the
    [with] block closes the connection on the way out, also when
    [read_info] raises. *)
Fixpoint get_data_from (self : t) (kinds : list ConnKind) (w : World)
  : result dict * World :=
  match kinds with
  | [] => (Raise (ValueError "No supported connections"), w)
  | conn_type :: rest =>
      if supports_connection (_device self) conn_type then
        match open_connection (_device self) conn_type w with
        | (Ok conn, w1) =>
            match read_info (Some (pid (_device self))) conn w1 with
            | (Ok info, w2) =>
                (Ok (info_snapshot info), connection_close conn w2)
            | (Raise e, w2) => (Raise e, connection_close conn w2)
            end
        | (Raise e, w1) => (Raise e, w1)
        end
      else get_data_from self rest w
  end.

Definition get_data (self : t) (w : World) : result dict * World :=
  get_data_from self
    [SmartCardConnection; OtpConnection; FidoConnection] w.

End DeviceNode.

(** ** The command pipeline *)

(** A running handler. The dispatch loop hands a handler the action, the
    target, the parameters, the [Event] and the [signal] function; what a
    handler does with the last two is all the loop can observe of it while
    it runs: it polls the flag, it emits a signal frame, and in the end it
    returns data or raises. *)
Inductive Handler : Type :=
| Return (data : dict)
| Raising (e : exn)
| Signal (name : string) (kwargs : dict) (k : Handler)
| IsSet (k : bool -> Handler).

(** [queue.Queue(maxsize)]: a blocking operation that cannot proceed
    returns [None]. *)
Module Queue.

Record t : Type := {
  maxsize : nat;
  queue : list (option dict);
  unfinished_tasks : nat
}.

Definition new (n : nat) : t :=
  {| maxsize := n; queue := []; unfinished_tasks := 0 |}.

Definition full (q : t) : bool :=
  (0 <? maxsize q)%nat && (maxsize q <=? length (queue q))%nat.

Definition put (item : option dict) (q : t) : option t :=
  if full q then None
  else Some {| maxsize := maxsize q; queue := queue q ++ [item];
               unfinished_tasks := S (unfinished_tasks q) |}.

Definition get (q : t) : option (option dict * t) :=
  match queue q with
  | [] => None
  | item :: rest =>
      Some (item, {| maxsize := maxsize q; queue := rest;
                     unfinished_tasks := unfinished_tasks q |})
  end.

Definition task_done (q : t) : result t :=
  match unfinished_tasks q with
  | O => Raise (ValueError "task_done() called too many times")
  | S n => Ok {| maxsize := maxsize q; queue := queue q;
                 unfinished_tasks := n |}
  end.

Definition join (q : t) : option unit :=
  match unfinished_tasks q with O => Some tt | S _ => None end.

End Queue.

Inductive LogRecord : Type :=
| UnhandledSignal (request : dict)
| ReturningError (e : exn).

(** Where the receiver thread stands in [_handle_incoming]. *)
Inductive ReaderPc : Type :=
| RRecv
| RCancel
| RUnhandled (request : dict)
| RJoin (request : dict)
| RClear (request : dict)
| RPut (request : dict)
| RUnsupported
| RFinalSet
| RFinalPut
| RDone.

(** Where the main thread stands in the loop of [process]. *)
Inductive MainPc : Type :=
| DGet
| DRun (request : dict) (h : Handler)
| DTaskDone
| DThreadJoin
| DDone
| DCrashed (e : exn).

Record State : Type := {
  inbox : list dict;
  event : bool;
  cmd_queue : Queue.t;
  sent : list dict;
  logged : list LogRecord;
  reader : ReaderPc;
  main : MainPc
}.

(** What a step does, as seen from outside the thread that takes it. *)
Inductive Label : Type :=
| LRecv (request : option dict)
| LEventSet
| LEventClear
| LUnhandled (request : dict)
| LJoin
| LPut (item : option dict)
| LGet (item : option dict)
| LIsSet (b : bool)
| LSignal (name : string) (kwargs : dict)
| LSuccess (request : dict) (data : dict)
| LError (request : option dict) (e : exn)
| LTaskDone
| LThreadJoin
| LCrash (e : exn).

Definition at_reader (pc : ReaderPc) (s : State) : State :=
  {| inbox := inbox s; event := event s; cmd_queue := cmd_queue s;
     sent := sent s; logged := logged s; reader := pc; main := main s |}.

Definition at_main (pc : MainPc) (s : State) : State :=
  {| inbox := inbox s; event := event s; cmd_queue := cmd_queue s;
     sent := sent s; logged := logged s; reader := reader s; main := pc |}.

Definition with_inbox (l : list dict) (s : State) : State :=
  {| inbox := l; event := event s; cmd_queue := cmd_queue s;
     sent := sent s; logged := logged s; reader := reader s; main := main s |}.

Definition with_event (b : bool) (s : State) : State :=
  {| inbox := inbox s; event := b; cmd_queue := cmd_queue s;
     sent := sent s; logged := logged s; reader := reader s; main := main s |}.

Definition with_queue (q : Queue.t) (s : State) : State :=
  {| inbox := inbox s; event := event s; cmd_queue := q;
     sent := sent s; logged := logged s; reader := reader s; main := main s |}.

(** [send(msg)] *)
Definition send (msg : dict) (s : State) : State :=
  {| inbox := inbox s; event := event s; cmd_queue := cmd_queue s;
     sent := sent s ++ [msg]; logged := logged s; reader := reader s;
     main := main s |}.

(** [logger.error(...)] *)
Definition logger_error (r : LogRecord) (s : State) : State :=
  {| inbox := inbox s; event := event s; cmd_queue := cmd_queue s;
     sent := sent s; logged := logged s ++ [r]; reader := reader s;
     main := main s |}.

(** [{"result": "error", "message": str(e)}] *)
Definition error_message (e : exn) : dict :=
  <["result" := VStr "error"]> (<["message" := VStr (str e)]> ∅).

(** [{"result": "success", **data}]: the fields of [data] come last and
    win. *)
Definition success_message (data : dict) : dict :=
  data ∪ {["result" := VStr "success"]}.

(** [{"signal": name, **kwargs}] *)
Definition signal_message (name : string) (kwargs : dict) : dict :=
  kwargs ∪ {["signal" := VStr name]}.

(** The closures [error], [signal] and [success] of [process]. *)
Definition error (e : exn) (s : State) : State :=
  send (error_message e) (logger_error (ReturningError e) s).

Definition signal (name : string) (kwargs : dict) (s : State) : State :=
  send (signal_message name kwargs) s.

Definition success (data : dict) (s : State) : State :=
  send (success_message data) s.

(** [request["signal"] == "cancel"] *)
Definition is_cancel (v : value) : bool :=
  match v with VStr n => bool_decide (n = "cancel") | _ => false end.

(** The branch of [_handle_incoming] a truthy request takes. *)
Definition classify (request : dict) : ReaderPc :=
  match request !! "signal" with
  | Some v => if is_cancel v then RCancel else RUnhandled request
  | None =>
      match request !! "action" with
      | Some _ => RJoin request
      | None => RUnsupported
      end
  end.

(** One step of the receiver thread; [None] when it is blocked or over. *)
Definition reader_step (s : State) : option (Label * State) :=
  match reader s with
  | RRecv =>
      match inbox s with
      | [] => Some (LRecv None, at_reader RFinalSet s)
      | request :: rest =>
          Some (LRecv (Some request),
                at_reader (if truthy request then classify request
                           else RFinalSet)
                  (with_inbox rest s))
      end
  | RCancel => Some (LEventSet, at_reader RRecv (with_event true s))
  | RUnhandled request =>
      Some (LUnhandled request,
            at_reader RRecv (logger_error (UnhandledSignal request) s))
  | RJoin request =>
      match Queue.join (cmd_queue s) with
      | Some _ => Some (LJoin, at_reader (RClear request) s)
      | None => None
      end
  | RClear request =>
      Some (LEventClear, at_reader (RPut request) (with_event false s))
  | RPut request =>
      match Queue.put (Some request) (cmd_queue s) with
      | Some q => Some (LPut (Some request), at_reader RRecv (with_queue q s))
      | None => None
      end
  | RUnsupported =>
      let e := Exception "Unsupported message type" in
      Some (LError None e, at_reader RRecv (error e s))
  | RFinalSet => Some (LEventSet, at_reader RFinalPut (with_event true s))
  | RFinalPut =>
      match Queue.put None (cmd_queue s) with
      | Some q => Some (LPut None, at_reader RDone (with_queue q s))
      | None => None
      end
  | RDone => None
  end.

Section Process.

(** The handler given to [process], by what it does for an action, a
    target and parameters. *)
Variable handler : value -> value -> value -> Handler.

(** The call [handler(request.pop("action"), request.pop("target", []),
    request.pop("params", {}), event, signal)]; the first [pop] raises
    when the key is missing. *)
Definition invoke (request : dict) : Handler :=
  match pop "action" request with
  | (None, _) => Raising (KeyError "'action'")
  | (Some action, r1) =>
      let '(target, r2) := pop_default "target" (VList []) r1 in
      let '(params, _) := pop_default "params" (VDict []) r2 in
      handler action target params
  end.

(** One step of the main thread. *)
Definition main_step (s : State) : option (Label * State) :=
  match main s with
  | DGet =>
      match Queue.get (cmd_queue s) with
      | None => None
      | Some (None, q) =>
          Some (LGet None, at_main DThreadJoin (with_queue q s))
      | Some (Some request, q) =>
          Some (LGet (Some request),
                at_main (DRun request (invoke request)) (with_queue q s))
      end
  | DRun request h =>
      match h with
      | Return data =>
          Some (LSuccess request data, at_main DTaskDone (success data s))
      | Raising e =>
          Some (LError (Some request) e, at_main DTaskDone (error e s))
      | Signal name kwargs k =>
          Some (LSignal name kwargs,
                at_main (DRun request k) (signal name kwargs s))
      | IsSet k =>
          Some (LIsSet (event s), at_main (DRun request (k (event s))) s)
      end
  | DTaskDone =>
      match Queue.task_done (cmd_queue s) with
      | Ok q => Some (LTaskDone, at_main DGet (with_queue q s))
      | Raise e => Some (LCrash e, at_main (DCrashed e) s)
      end
  | DThreadJoin =>
      match reader s with
      | RDone => Some (LThreadJoin, at_main DDone s)
      | _ => None
      end
  | DDone | DCrashed _ => None
  end.

(** The two threads interleave, one step of either at a time: a schedule
    says which thread moves next, and [exec] follows a schedule, with the
    labels of the steps in order; it fails when the thread whose turn it
    is cannot move. *)
Inductive Thread : Type := Reader | Main.

Definition sched_step (th : Thread) (s : State) : option (Label * State) :=
  match th with Reader => reader_step s | Main => main_step s end.

Fixpoint exec (sched : list Thread) (s : State) : option (list Label * State) :=
  match sched with
  | [] => Some ([], s)
  | th :: rest =>
      match sched_step th s with
      | Some (l, s1) =>
          match exec rest s1 with
          | Some (t, s2) => Some (l :: t, s2)
          | None => None
          end
      | None => None
      end
  end.

End Process.

(** The state in which [process] starts its two threads. *)
Definition initial (messages : list dict) : State :=
  {| inbox := messages; event := false; cmd_queue := Queue.new 1;
     sent := []; logged := []; reader := RRecv; main := DGet |}.

(** ** What the statements below speak of *)

(** The commands the receiver will submit out of a stream of messages: the
    requests it classifies as actions, up to the first falsy message. *)
Fixpoint commands (messages : list dict) : list dict :=
  match messages with
  | [] => []
  | m :: rest =>
      if truthy m then
        match classify m with
        | RJoin r => r :: commands rest
        | _ => commands rest
        end
      else []
  end.

(** The commands put on the queue, taken from it and answered by the main
    thread, in the order of an execution. *)
Definition put_of (l : Label) : option dict :=
  match l with LPut (Some r) => Some r | _ => None end.

Definition got_of (l : Label) : option dict :=
  match l with LGet (Some r) => Some r | _ => None end.

Definition answer_of (l : Label) : option dict :=
  match l with
  | LSuccess r _ | LError (Some r) _ => Some r
  | _ => None
  end.

Definition puts (t : list Label) : list dict := omap put_of t.
Definition gets (t : list Label) : list dict := omap got_of t.
Definition answered (t : list Label) : list dict := omap answer_of t.

(** The frames an execution writes to the transport. *)
Definition frame_of (l : Label) : option dict :=
  match l with
  | LSuccess _ data => Some (success_message data)
  | LError _ e => Some (error_message e)
  | LSignal name kwargs => Some (signal_message name kwargs)
  | _ => None
  end.

Definition frames (t : list Label) : list dict := omap frame_of t.

(** The commands waiting in the queue. *)
Definition queued (s : State) : list dict :=
  omap id (Queue.queue (cmd_queue s)).

(** The command the main thread is executing, and the one it holds until
    [task_done]. *)
Definition executing (s : State) : list dict :=
  match main s with DRun r _ => [r] | _ => [] end.

Definition busy (s : State) : nat :=
  match main s with DRun _ _ | DTaskDone => 1 | _ => 0 end.

(** Commands submitted and not yet marked as done. *)
Definition in_flight (s : State) : nat := length (queued s) + busy s.

(** The sentinel has been taken from the queue. *)
Definition drained (s : State) : nat :=
  match main s with DThreadJoin | DDone => 1 | _ => 0 end.

(** The commands the receiver has still to submit. *)
Definition ahead (s : State) : list dict :=
  match reader s with
  | RJoin r | RClear r | RPut r => r :: commands (inbox s)
  | RRecv | RCancel | RUnhandled _ | RUnsupported => commands (inbox s)
  | RFinalSet | RFinalPut | RDone => []
  end.

Definition finished (s : State) : Prop :=
  reader s = RDone /\ main s = DDone.

(** The steps of an execution that the receiver thread took. *)
Definition is_reader_label (l : Label) : bool :=
  match l with
  | LRecv _ | LEventSet | LEventClear | LUnhandled _ | LJoin | LPut _
  | LError None _ => true
  | _ => false
  end.

Definition reader_labels (t : list Label) : list Label :=
  List.filter is_reader_label t.

(** The flag as the receiver's [set] and [clear] steps leave it, starting
    from cleared. *)
Definition flag_step (b : bool) (l : Label) : bool :=
  match l with LEventSet => true | LEventClear => false | _ => b end.

Definition flag_after (rl : list Label) : bool := foldl flag_step false rl.

(** What the receiver has just done, by where it stands. *)
Definition reader_tail (pc : ReaderPc) (rl : list Label) : Prop :=
  match pc with
  | RJoin r => [LRecv (Some r)] `suffix_of` rl
  | RClear r => [LRecv (Some r); LJoin] `suffix_of` rl
  | RPut r => [LRecv (Some r); LJoin; LEventClear] `suffix_of` rl
  | _ => True
  end.

(** [leads_to h h']: the running handler [h] can become [h']. *)
Inductive leads_to : Handler -> Handler -> Prop :=
| leads_refl h : leads_to h h
| leads_signal h name kwargs k :
    leads_to h (Signal name kwargs k) -> leads_to h k
| leads_is_set h k b : leads_to h (IsSet k) -> leads_to h (k b).

Section Invariants.

Variable handler : value -> value -> value -> Handler.

(** What holds of every state the two threads can reach. *)
Record Inv (s : State) : Prop := {
  inv_maxsize : Queue.maxsize (cmd_queue s) = 1;
  inv_unfinished :
    Queue.unfinished_tasks (cmd_queue s)
    = length (Queue.queue (cmd_queue s)) + busy s + drained s;
  inv_in_flight : in_flight s <= 1;
  inv_joined :
    forall r, reader s = RClear r \/ reader s = RPut r ->
              Queue.unfinished_tasks (cmd_queue s) = 0;
  inv_cleared : forall r, reader s = RPut r -> event s = false;
  inv_final : reader s = RFinalPut \/ reader s = RDone -> event s = true;
  inv_alive : forall e, main s <> DCrashed e;
  inv_sentinel :
    match reader s with
    | RDone => (Queue.queue (cmd_queue s) = [None] /\ drained s = 0)
               \/ (Queue.queue (cmd_queue s) = [] /\ drained s = 1)
    | _ => Forall is_Some (Queue.queue (cmd_queue s)) /\ drained s = 0
    end;
  inv_running :
    forall r h, main s = DRun r h -> leads_to (invoke handler r) h
}.

(** How an execution from [initial messages] relates to the state it has
    reached. *)
Record Hist (messages : list dict) (t : list Label) (s : State) : Prop := {
  hist_puts : puts t = gets t ++ queued s;
  hist_gets : gets t = answered t ++ executing s;
  hist_commands : commands messages = puts t ++ ahead s;
  hist_sent : sent s = frames t;
  hist_tail : reader_tail (reader s) (reader_labels t);
  hist_flag : event s = flag_after (reader_labels t);
  hist_order :
    forall t1 r t2,
      reader_labels t = t1 ++ LPut (Some r) :: t2 ->
      [LRecv (Some r); LJoin; LEventClear] `suffix_of` t1
}.

End Invariants.

Section Fuel.

Variable handler : value -> value -> value -> Handler.







End Fuel.

(** The first kind, in the order [get_data] tries them, that a device
    supports. *)
Definition first_supported (dev : Device) : option ConnKind :=
  List.find (supports_connection dev)
    [SmartCardConnection; OtpConnection; FidoConnection].

(** The two enumerating nodes under one type, as the subclasses of
    [RpcNode] that override [list_children] with a cache. *)
Inductive EnumeratingNode : Type :=
| Devices (n : DevicesNode.t)
| Readers (n : ReadersNode.t).

(** The fingerprint an enumerating node computes from the outside world. *)
Definition fingerprint (n : EnumeratingNode) (w : World) : Z + gset string :=
  match n with
  | Devices _ => inl (usb_state w)
  | Readers _ =>
      inr (ReadersNode.names (ReadersNode.visible (pcsc_devices w)))
  end.

(** The fingerprint an enumerating node has cached. *)
Definition cached_fingerprint (n : EnumeratingNode) : Z + gset string :=
  match n with
  | Devices d => inl (DevicesNode._state d)
  | Readers r => inr (ReadersNode._state r)
  end.

(** The external call by which it computes the fingerprint. *)
Definition fingerprint_call (n : EnumeratingNode) : Call :=
  match n with Devices _ => CScanDevices | Readers _ => CListDevices end.

Definition list_children (n : EnumeratingNode) (w : World)
  : gmap string dict * EnumeratingNode * World :=
  match n with
  | Devices d =>
      let '(r, d', w') := DevicesNode.list_children d w in (r, Devices d', w')
  | Readers r0 =>
      let '(r, r', w') := ReadersNode.list_children r0 w in (r, Readers r', w')
  end.

(** The accessor of a [DeviceNode] for each kind of connection. *)
Definition accessor (k : ConnKind)
  : DeviceNode.t -> World -> result ConnectionNode.t * World :=
  match k with
  | SmartCardConnection => DeviceNode.ccid
  | OtpConnection => DeviceNode.otp
  | FidoConnection => DeviceNode.fido
  end.


(** ** Sample hardware *)

Definition sample_info : DeviceInfo :=
  {| version := (5, 4, 3)%Z; serial := Some 1234567%Z |}.

Definition sample_conn (k : ConnKind) : Connection :=
  {| conn_id := 7; conn_kind := k |}.

(** A key that offers OTP and FIDO but no smart card interface. *)
Definition sample_key : Device :=
  {| pid := {| pid_value := 1031; get_type := Some "YubiKey 4/5" |};
     reader_name := ""; reader_name_lower := "";
     supports_connection :=
       fun k => match k with SmartCardConnection => false | _ => true end;
     device_open := fun k => Ok (sample_conn k) |}.

(** A key that offers no interface at all. *)
Definition mute_key : Device :=
  {| pid := {| pid_value := 272; get_type := None |};
     reader_name := ""; reader_name_lower := "";
     supports_connection := fun _ => false;
     device_open := fun _ => Raise (OSError "not supported") |}.

Definition sample_reader : Device :=
  {| pid := {| pid_value := 0; get_type := None |};
     reader_name := "ACME Reader 00"; reader_name_lower := "acme reader 00";
     supports_connection :=
       fun k => match k with SmartCardConnection => true | _ => false end;
     device_open := fun k => Ok (sample_conn k) |}.

Definition sample_world (state : Z) (keys : list (Device * DeviceInfo)) : World :=
  {| usb_state := state; usb_devices := keys;
     pcsc_devices := [sample_reader];
     entropy := fun _ => x2a; entropy_used := 0;
     namer := fun _ _ => "YubiKey 5 NFC";
     by_serial := fun _ ks => Ok (sample_conn (List.hd OtpConnection ks));
     identity := fun _ => Ok sample_info;
     trace := [] |}.

(** ** Sample traffic *)

(** A handler that knows one action: it polls the flag, reports progress
    with a signal and returns the target it was given. *)
Definition sample_handler (action target params : value) : Handler :=
  match action with
  | VStr a =>
      if bool_decide (a = "get") then
        IsSet (fun cancelled =>
                 if cancelled then Return {["cancelled" := VBool true]}
                 else Signal "progress" ∅ (Return {["data" := target]}))
      else Raising (ValueError "unknown action")
  | _ => Raising (ValueError "unknown action")
  end.

Definition get_request : dict :=
  <["action" := VStr "get"]> (<["target" := VList [VStr "devices"]]> ∅).

Definition cancel_signal : dict := {["signal" := VStr "cancel"]}.

Definition ping_signal : dict := {["signal" := VStr "ping"]}.

Definition stray_message : dict := {["hello" := VInt 1]}.

(** ** More of the node tree: resolving children *)

(** What [create_child] comes to: a child node; the call of the inherited
    [create_child] with the name, which is not part of the sources at hand;
    or the [KeyError] of a look-up of the name among the backing entries. *)
Inductive Resolution (A : Type) : Type :=
| Child (node : A)
| Super (name : string)
| Missing (key : string).
Arguments Child {A} node.
Arguments Super {A} name.
Arguments Missing {A} key.

(** [ReadersNode.create_child] *)
Definition ReadersNode_create_child (self : ReadersNode.t) (name : string)
  : Resolution DeviceNode.t :=
  match ReadersNode._readers self !! name with
  | Some _ =>
      match ReadersNode._reader_mapping self !! name with
      | Some device =>
          Child {| DeviceNode._device := device; DeviceNode._info := None |}
      | None => Missing name
      end
  | None => Super name
  end.

(** [DevicesNode.create_child]: the listing is refreshed first. *)
Definition DevicesNode_create_child (self : DevicesNode.t) (name : string)
    (w : World)
  : Resolution DeviceNode.t * DevicesNode.t * World :=
  let '(children, self1, w1) := DevicesNode.list_children self w in
  match children !! name with
  | Some _ =>
      match DevicesNode._device_mapping self1 !! name with
      | Some (dev, info) =>
          (Child {| DeviceNode._device := dev;
                    DeviceNode._info := Some info |}, self1, w1)
      | None => (Missing name, self1, w1)
      end
  | None => (Super name, self1, w1)
  end.

(** The descriptor [DevicesNode] lists for an attached device. *)
Definition device_descriptor (w : World) (entry : Device * DeviceInfo) : dict :=
  DevicesNode.descriptor entry.1
    (get_name w entry.2 (get_type (pid entry.1))).

(** The descriptor [ReadersNode] lists for a reader. *)
Definition reader_descriptor (d : Device) : dict :=
  <["name" := VStr (reader_name d)]> ∅.

(** The bytes [os.urandom(4)] yields at the [i]-th draw from [w] on, and
    the identifier made of them. *)
Definition block (w : World) (i : nat) : list byte :=
  map (entropy w) (seq (entropy_used w + 4 * i) 4).

Definition draw (w : World) (i : nat) : string := hex (block w i).

(** The identifiers and the backing objects of a node go together. *)
Definition readers_consistent (self : ReadersNode.t) : Prop :=
  ReadersNode._readers self
  = reader_descriptor <$> ReadersNode._reader_mapping self.

Definition devices_consistent (self : DevicesNode.t) : Prop :=
  dom (DevicesNode._devices self) = dom (DevicesNode._device_mapping self).

(** A key that offers OTP but cannot be opened just now. *)
Definition busy_key : Device :=
  {| pid := {| pid_value := 1025; get_type := Some "YubiKey 4/5" |};
     reader_name := ""; reader_name_lower := "";
     supports_connection :=
       fun k => match k with OtpConnection => true | _ => false end;
     device_open := fun _ => Raise (OSError "Failed to open device") |}.

(** Two readers, and an entropy source that repeats itself. *)
Definition twin_world : World :=
  {| usb_state := 1; usb_devices := [];
     pcsc_devices :=
       [sample_reader;
        {| pid := {| pid_value := 0; get_type := None |};
           reader_name := "ACME Reader 01";
           reader_name_lower := "acme reader 01";
           supports_connection := fun _ => false;
           device_open := fun _ => Raise (OSError "not supported") |}];
     entropy := fun _ => x2a; entropy_used := 0;
     namer := fun _ _ => "";
     by_serial := fun _ _ => Raise (OSError "no such device");
     identity := fun _ => Ok sample_info;
     trace := [] |}.

(** The same two readers, and an entropy source whose second draw of four
    bytes differs from the first. *)
Definition varied_world : World :=
  {| usb_state := usb_state twin_world;
     usb_devices := usb_devices twin_world;
     pcsc_devices := pcsc_devices twin_world;
     entropy := fun i => if (i <? 4)%nat then x2a else x2b;
     entropy_used := 0;
     namer := namer twin_world;
     by_serial := by_serial twin_world;
     identity := identity twin_world;
     trace := [] |}.

(** ** More of the pipeline: what the two threads do for a stream *)

(** The steps the receiver has still to take for the message it is at. *)
Definition branch_script (pc : ReaderPc) : list Label :=
  match pc with
  | RCancel => [LEventSet]
  | RUnhandled m => [LUnhandled m]
  | RJoin r => [LJoin; LEventClear; LPut (Some r)]
  | RClear r => [LEventClear; LPut (Some r)]
  | RPut r => [LPut (Some r)]
  | RUnsupported => [LError None (Exception "Unsupported message type")]
  | RFinalSet => [LEventSet; LPut None]
  | RFinalPut => [LPut None]
  | RRecv | RDone => []
  end.

(** The steps [_handle_incoming] takes for a stream of messages. *)
Fixpoint reader_script (messages : list dict) : list Label :=
  match messages with
  | [] => [LRecv None; LEventSet; LPut None]
  | m :: rest =>
      LRecv (Some m)
        :: (if truthy m then branch_script (classify m) ++ reader_script rest
            else [LEventSet; LPut None])
  end.

(** The steps the receiver has still to take from a state on. *)
Definition reader_rest (s : State) : list Label :=
  branch_script (reader s)
  ++ match reader s with
     | RFinalSet | RFinalPut | RDone => []
     | _ => reader_script (inbox s)
     end.

(** The messages behind the first falsy one. *)
Fixpoint unread (messages : list dict) : list dict :=
  match messages with
  | [] => []
  | m :: rest => if truthy m then unread rest else rest
  end.

(** The messages the receiver will leave unread, from a state on. *)
Definition unread_from (s : State) : list dict :=
  match reader s with
  | RFinalSet | RFinalPut | RDone => inbox s
  | _ => unread (inbox s)
  end.

(** A running handler that does not look at the flag. *)
Fixpoint poll_free (h : Handler) : Prop :=
  match h with
  | IsSet _ => False
  | Signal _ _ k => poll_free k
  | Return _ | Raising _ => True
  end.

(** The steps the main thread takes for a running handler that does not
    look at the flag. *)
Fixpoint handler_script (r : dict) (h : Handler) : list Label :=
  match h with
  | Return data => [LSuccess r data]
  | Raising e => [LError (Some r) e]
  | Signal name kwargs k => LSignal name kwargs :: handler_script r k
  | IsSet _ => []
  end.

(** The steps of an execution that the main thread took. *)
Definition main_labels (t : list Label) : list Label :=
  List.filter (fun l => negb (is_reader_label l)) t.

Definition main_rest (pc : MainPc) : list Label :=
  match pc with
  | DRun r h => handler_script r h ++ [LTaskDone]
  | DTaskDone => [LTaskDone]
  | _ => []
  end.

Definition main_tail (pc : MainPc) : list Label :=
  match pc with
  | DThreadJoin => [LGet None]
  | DDone => [LGet None; LThreadJoin]
  | _ => []
  end.

(** The truthy messages of neither kind before the end of the stream, by
    number, and the signals other than cancel. *)
Fixpoint unsupported (messages : list dict) : nat :=
  match messages with
  | [] => 0
  | m :: rest =>
      if truthy m then
        match classify m with
        | RUnsupported => S (unsupported rest)
        | _ => unsupported rest
        end
      else 0
  end.

Fixpoint unhandled (messages : list dict) : list dict :=
  match messages with
  | [] => []
  | m :: rest =>
      if truthy m then
        match classify m with
        | RUnhandled r => r :: unhandled rest
        | _ => unhandled rest
        end
      else []
  end.

Definition unhandled_of (l : Label) : option dict :=
  match l with LUnhandled m => Some m | _ => None end.

(** A handler that reports progress and returns its target, without a look
    at the flag. *)
Definition echo_handler (action target params : value) : Handler :=
  Signal "progress" ∅ (Return {["data" := target]}).

Section Scripts.

Variable handler : value -> value -> value -> Handler.

(** The steps of the main thread for one command. *)
Definition command_script (r : dict) : list Label :=
  LGet (Some r) :: handler_script r (invoke handler r) ++ [LTaskDone].

End Scripts.

(** * Facts about the node tree *)

(** A reader that is itself a key is not listed among the readers. *)
Example key_reader_hidden :
  ReadersNode.visible
    [sample_reader;
     {| pid := {| pid_value := 1031; get_type := None |};
        reader_name := "Yubico YubiKey OTP+FIDO+CCID 00 00";
        reader_name_lower := "yubico yubikey otp+fido+ccid 00 00";
        supports_connection := fun _ => true;
        device_open := fun k => Ok (sample_conn k) |}]
  = [sample_reader].
Proof. reflexivity. Qed.

(** After a call the node holds the fingerprint it has just computed and
    the mapping it has just returned. *)
Lemma DevicesNode_after (self : DevicesNode.t) (w : World) :
  DevicesNode._state (DevicesNode.list_children self w).1.2 = usb_state w
  /\ DevicesNode._devices (DevicesNode.list_children self w).1.2
     = (DevicesNode.list_children self w).1.1.
Proof.
  unfold DevicesNode.list_children, scan_devices, list_all_devices.
  destruct (decide (usb_state w = DevicesNode._state self)) as [e|ne].
  - simpl. auto.
  - destruct (foldl _ _ _) as [devices mapping]. simpl. auto.
Qed.

(** The same for [ReadersNode]. *)
Lemma ReadersNode_after (self : ReadersNode.t) (w : World) :
  ReadersNode._state (ReadersNode.list_children self w).1.2
  = ReadersNode.names (ReadersNode.visible (pcsc_devices w))
  /\ ReadersNode._readers (ReadersNode.list_children self w).1.2
     = (ReadersNode.list_children self w).1.1.
Proof.
  unfold ReadersNode.list_children, list_devices.
  destruct (decide _) as [e|ne].
  - simpl. auto.
  - destruct (foldl _ _ _) as [[readers mapping] w2]. simpl. auto.
Qed.

(** C3. For either enumerating node: when the fingerprint the outside world
    shows at a second call of [list_children] equals the one it showed at the
    call before, the second call returns the mapping of the first, leaves the
    node as it was (the identifiers and the backing entries they stand for
    included), and the only external call it makes is the one that computes
    the fingerprint: nothing is enumerated again and no identifier is
    drawn. *)
Theorem list_children_cached (n : EnumeratingNode) (w1 w2 : World) :
  fingerprint n w2 = fingerprint n w1 ->
  list_children (list_children n w1).1.2 w2
  = ((list_children n w1).1.1, (list_children n w1).1.2,
     record (fingerprint_call n) w2).
Proof.
  destruct n as [d|r]; simpl; intros Hfp.
  - injection Hfp as Hfp.
    destruct (DevicesNode_after d w1) as [Hst Hdev].
    destruct (DevicesNode.list_children d w1) as [[r1 d1] w1'] eqn:E1.
    simpl in *.
    unfold DevicesNode.list_children at 1, scan_devices.
    rewrite decide_True by congruence.
    by rewrite Hdev.
  - injection Hfp as Hfp.
    destruct (ReadersNode_after r w1) as [Hst Hrd].
    destruct (ReadersNode.list_children r w1) as [[r1 n1] w1'] eqn:E1.
    simpl in *.
    unfold ReadersNode.list_children at 1, list_devices.
    rewrite decide_True by congruence.
    by rewrite Hrd.
Qed.

Lemma list_children_cached_witness :
  let n := Devices DevicesNode.init in
  let w1 := sample_world 1 [(sample_key, sample_info)] in
  let w2 := sample_world 1 [] in
  fingerprint n w2 = fingerprint n w1
  /\ list_children (list_children n w1).1.2 w2
     = ((list_children n w1).1.1, (list_children n w1).1.2,
        record (fingerprint_call n) w2).
Proof.
  intros n w1 w2. split; [reflexivity|].
  apply (list_children_cached n w1 w2). reflexivity.
Defined.

(** The identifiers [DevicesNode] hands out: the decimal numerals below the
    number of entries. *)
Lemma add_device_ids (w : World) (all : list (Device * DeviceInfo))
    (devices : gmap string dict) (mapping : gmap string (Device * DeviceInfo)) :
  dom devices = list_to_set (map pretty (seq 0 (size devices))) ->
  let out := foldl (DevicesNode.add_device w) (devices, mapping) all in
  dom out.1 = list_to_set (map pretty (seq 0 (size devices + length all))).
Proof.
  revert devices mapping. induction all as [|[dev info] all IH];
    intros devices mapping Hdom; simpl.
  - by rewrite Nat.add_0_r.
  - set (k := size devices) in *.
    assert (Hfresh : devices !! (pretty k : string) = None).
    { apply not_elem_of_dom. rewrite Hdom.
      rewrite elem_of_list_to_set, list_elem_of_fmap.
      intros (j & Hj & Hin). apply (inj pretty) in Hj. subst j.
      apply elem_of_seq in Hin. lia. }
    specialize (IH (<[pretty k := DevicesNode.descriptor dev
                        (get_name w info (get_type (pid dev)))]> devices)
                  (<[pretty k := (dev, info)]> mapping)).
    rewrite map_size_insert_None in IH by done. fold k in IH.
    replace (k + S (length all)) with (S k + length all) by lia.
    apply IH.
    rewrite dom_insert_L, Hdom.
    replace (S k) with (k + 1) by lia.
    rewrite seq_app, map_app, list_to_set_app_L. simpl.
    rewrite union_empty_r_L. apply (comm_L _).
Qed.

(** After a change of fingerprint the identifiers of [DevicesNode] are
    "0", "1", ... up to the number of attached devices, whatever the
    identifiers were before. *)
Lemma DevicesNode_ids_sequential (self : DevicesNode.t) (w : World) :
  usb_state w <> DevicesNode._state self ->
  dom (DevicesNode.list_children self w).1.1
  = list_to_set (map pretty (seq 0 (length (usb_devices w)))).
Proof.
  intros Hne. unfold DevicesNode.list_children, scan_devices, list_all_devices.
  rewrite decide_False by done.
  pose proof (add_device_ids (record CListAllDevices (record CScanDevices w))
                (usb_devices w) ∅ ∅) as H.
  rewrite map_size_empty in H. simpl in H.
  destruct (foldl _ _ _) as [devices mapping]. simpl in *.
  apply H. set_solver.
Qed.

(** C4. [DevicesNode] with one key attached, then, after the fingerprint
    has changed, with another key attached: the second call does enumerate
    afresh, and both enumerations name their only child "0". The identifier
    sets of the two enumerations are not disjoint. *)
Theorem devices_identifier_reused :
  let w1 := sample_world 1 [(sample_key, sample_info)] in
  let w2 := sample_world 2 [(mute_key, sample_info)] in
  let first := list_children (Devices DevicesNode.init) w1 in
  let second := list_children first.1.2 w2 in
  fingerprint (Devices DevicesNode.init) w2 <> fingerprint (Devices DevicesNode.init) w1
  /\ trace second.2 = [CScanDevices; CListAllDevices]
  /\ dom first.1.1 = {["0"]}
  /\ dom second.1.1 = {["0"]}
  /\ dom first.1.1 ∩ dom second.1.1 <> ∅.
Proof.
  intros w1 w2 first second.
  assert (H1 : dom first.1.1 = {["0"]}) by (vm_compute; reflexivity).
  assert (H2 : dom second.1.1 = {["0"]}) by (vm_compute; reflexivity).
  repeat split; try done.
Qed.

(** [ReadersNode], the sibling of [DevicesNode], draws four bytes from
    [os.urandom] for its child and names it by their hexadecimal text. *)
Example readers_identifier_random :
  let out := list_children (Readers ReadersNode.init) (sample_world 1 []) in
  trace out.2 = [CListDevices; CUrandom 4]
  /\ dom out.1.1 = {["2a2a2a2a"]}.
Proof. split; vm_compute; reflexivity. Qed.



(** Kinds the device does not support are passed over. *)
Lemma get_data_from_skip (self : DeviceNode.t) (w : World)
    (skipped rest : list ConnKind) :
  Forall (fun k => supports_connection (DeviceNode._device self) k = false)
    skipped ->
  DeviceNode.get_data_from self (skipped ++ rest) w
  = DeviceNode.get_data_from self rest w.
Proof.
  induction 1 as [|k ks Hk _ IH]; simpl; [done|]. by rewrite Hk.
Qed.

(** [find] returns the first element that passes, or none when none does. *)
Lemma find_split {A} (f : A -> bool) (l : list A) (x : A) :
  List.find f l = Some x ->
  exists l1 l2, l = l1 ++ x :: l2 /\ Forall (fun y => f y = false) l1
                /\ f x = true.
Proof.
  induction l as [|y l IH]; simpl; [done|].
  destruct (f y) eqn:Ey.
  - intros [= ->]. exists [], l. auto.
  - intros H. destruct (IH H) as (l1 & l2 & -> & Hl1 & Hx).
    exists (y :: l1), l2. auto.
Qed.

Lemma find_none {A} (f : A -> bool) (l : list A) :
  List.find f l = None -> Forall (fun y => f y = false) l.
Proof.
  induction l as [|y l IH]; simpl; [constructor|].
  destruct (f y) eqn:Ey; [done|]. auto.
Qed.

(** C8. [DeviceNode.get_data] opens the first kind the device supports, in
    the order smart card, OTP, FIDO, reads the info over that connection,
    closes it, and returns a snapshot with a "version" and a "serial" field;
    when the device supports no kind it raises
    [ValueError("No supported connections")] without opening anything. *)
Theorem get_data_first_supported (self : DeviceNode.t) (w : World) :
  let dev := DeviceNode._device self in
  (forall k conn info,
      first_supported dev = Some k ->
      device_open dev k = Ok conn ->
      identity w conn = Ok info ->
      DeviceNode.get_data self w
      = (Ok (info_snapshot info),
         connection_close conn
           (record (CReadInfo (conn_id conn)) (record (COpen k) w)))
      /\ info_snapshot info !! "version"
         = Some (value_of_version (version info))
      /\ info_snapshot info !! "serial"
         = Some (value_of_serial (serial info)))
  /\ (first_supported dev = None ->
      DeviceNode.get_data self w
      = (Raise (ValueError "No supported connections"), w)).
Proof.
  intros dev. unfold first_supported, DeviceNode.get_data. split.
  - intros k conn info Hfind Hopen Hid.
    destruct (find_split _ _ _ Hfind) as (l1 & l2 & -> & Hl1 & Hk).
    rewrite get_data_from_skip by done. simpl.
    fold dev. rewrite Hk. unfold open_connection. rewrite Hopen.
    unfold read_info. simpl. rewrite Hid. done.
  - intros Hfind. apply find_none in Hfind.
    rewrite <- (app_nil_r [_; _; _]).
    by rewrite get_data_from_skip.
Qed.

Lemma get_data_first_supported_witness :
  let w := sample_world 1 [] in
  DeviceNode.get_data
    {| DeviceNode._device := sample_key; DeviceNode._info := None |} w
  = (Ok (info_snapshot sample_info),
     connection_close (sample_conn OtpConnection)
       (record (CReadInfo 7) (record (COpen OtpConnection) w)))
  /\ DeviceNode.get_data
       {| DeviceNode._device := mute_key; DeviceNode._info := None |} w
     = (Raise (ValueError "No supported connections"), w).
Proof.
  intros w. split.
  - apply (proj1 (get_data_first_supported
             {| DeviceNode._device := sample_key; DeviceNode._info := None |} w)
             OtpConnection (sample_conn OtpConnection) sample_info);
      reflexivity.
  - apply (proj2 (get_data_first_supported
             {| DeviceNode._device := mute_key; DeviceNode._info := None |} w));
      reflexivity.
Defined.

(** One more release is counted for each recorded [close] of the handle. *)
Lemma releases_record (id : nat) (c : Call) (w : World) :
  releases id (record c w)
  = releases id w + (if is_close id c then 1 else 0).
Proof.
  unfold releases, record. simpl. rewrite List.filter_app, length_app. simpl.
  by destruct (is_close id c).
Qed.




(** * Facts about the command pipeline *)

Section PipelineFacts.

Variable handler : value -> value -> value -> Handler.

Ltac crush :=
  simpl in *; unfold in_flight, queued, busy, drained in *; simpl in *;
  try done; try lia;
  try (intros ? [?|?]; simplify_eq; eauto; done);
  try (intros [?|?]; simplify_eq; eauto; done);
  try (intros; simplify_eq; eauto; done).

(** The invariant holds at the start and is kept by every step of either
    thread. *)
Lemma Inv_initial (messages : list dict) : Inv handler (initial messages).
Proof. constructor; crush. Qed.

(** A [put] on the queue of capacity one goes through only when the queue
    is empty. *)
Lemma put_inv (item : option dict) (q q' : Queue.t) :
  Queue.maxsize q = 1 ->
  Queue.put item q = Some q' ->
  Queue.queue q = []
  /\ q' = {| Queue.maxsize := 1; Queue.queue := [item];
             Queue.unfinished_tasks := S (Queue.unfinished_tasks q) |}.
Proof.
  unfold Queue.put, Queue.full. intros Hmax. rewrite Hmax. simpl.
  destruct (Queue.queue q) as [|x l] eqn:E; simpl; [|done].
  intros [= <-]. done.
Qed.

(** A request is classified as a cancel, an unhandled signal, an action
    (kept as it is) or an unsupported message. *)
Lemma classify_cases (m : dict) :
  match classify m with
  | RCancel | RUnhandled _ | RUnsupported => True
  | RJoin r => r = m
  | _ => False
  end.
Proof.
  unfold classify. destruct (m !! "signal") as [v|].
  - by destruct (is_cancel v).
  - by destruct (m !! "action").
Qed.

Lemma Inv_reader_step (s s' : State) (l : Label) :
  Inv handler s -> reader_step s = Some (l, s') -> Inv handler s'.
Proof.
  intros [Hmax Hunf Hfl Hjoin Hclr Hfin Halive Hsent Hrun] Hstep.
  unfold reader_step in Hstep.
  destruct s as [ib ev q snt lg rd mn]; simpl in *.
  unfold in_flight, queued, busy, drained in *; simpl in *.
  destruct rd; simpl in *.
  - (* RRecv *)
    destruct ib as [|m rest]; simplify_eq.
    + constructor; crush.
    + pose proof (classify_cases m) as Hc.
      constructor; crush; destruct (truthy m), (classify m); crush.
  - simplify_eq. constructor; crush.
  - simplify_eq. constructor; crush.
  - destruct (Queue.join q) eqn:Ej; simplify_eq.
    unfold Queue.join in Ej.
    destruct (Queue.unfinished_tasks q) eqn:Eu; [|done].
    constructor; crush.
  - simplify_eq. constructor; crush.
  - destruct (Queue.put _ q) as [q'|] eqn:Ep; simplify_eq.
    destruct (put_inv _ _ _ Hmax Ep) as [Hq ->].
    specialize (Hjoin request (or_intror eq_refl)).
    rewrite Hq in *. simpl in *.
    constructor; crush.
    split; [|lia]. repeat constructor. by eexists.
  - simplify_eq. constructor; crush.
  - simplify_eq. constructor; crush.
  - destruct (Queue.put _ q) as [q'|] eqn:Ep; simplify_eq.
    destruct (put_inv _ _ _ Hmax Ep) as [Hq ->].
    rewrite Hq in *. simpl in *.
    constructor; crush.
    left. split; [done|lia].
  - done.
Qed.

Lemma Inv_main_step (s s' : State) (l : Label) :
  Inv handler s -> main_step handler s = Some (l, s') -> Inv handler s'.
Proof.
  intros [Hmax Hunf Hfl Hjoin Hclr Hfin Halive Hsent Hrun] Hstep.
  unfold main_step in Hstep.
  destruct s as [ib ev q snt lg rd mn]; simpl in *.
  unfold in_flight, queued, busy, drained in *; simpl in *.
  destruct mn as [|r h| | | |e]; simpl in *.
  - (* DGet *)
    unfold Queue.get in Hstep.
    destruct q as [mx items unf]; simpl in *.
    destruct items as [|[r|] rest]; simplify_eq; simpl in *.
    + constructor; crush.
      * change (list_omap _ _ id rest) with (omap id rest) in Hfl. lia.
      * destruct rd;
          try (destruct Hsent as [Hall ?]; split; [by inversion Hall | done]).
        destruct Hsent as [[? _]|[? _]]; done.
      * intros r0 h [= <- <-]. constructor.
    + assert (rd = RDone) as ->.
      { destruct rd; try done; destruct Hsent as [Hall _];
          inversion Hall as [|?? [? ?]]; done. }
      destruct Hsent as [[[= ->] _]|[? _]]; [|done].
      constructor; crush.
  - (* DRun *)
    destruct h as [data|e|name kwargs k|k]; simplify_eq;
      constructor; crush.
    + intros r0 h [= <- <-]. eapply leads_signal, Hrun. done.
    + intros r0 h [= <- <-]. eapply leads_is_set, Hrun. done.
  - (* DTaskDone *)
    unfold Queue.task_done in Hstep.
    destruct q as [mx items unf]; simpl in *.
    destruct unf as [|n]; [lia|]. simplify_eq.
    constructor; crush.
    + intros r0 H. specialize (Hjoin r0 H). lia.
  - (* DThreadJoin *)
    destruct rd; simplify_eq. constructor; crush.
  - done.
  - done.
Qed.

Lemma Inv_sched_step (th : Thread) (s s' : State) (l : Label) :
  Inv handler s -> sched_step handler th s = Some (l, s') -> Inv handler s'.
Proof.
  destruct th; simpl; eauto using Inv_reader_step, Inv_main_step.
Qed.

(** Executions, one step at a time from the far end. *)
Lemma exec_snoc (sched : list Thread) (th : Thread) (s : State) :
  exec handler (sched ++ [th]) s
  = match exec handler sched s with
    | Some (t0, s0) =>
        match sched_step handler th s0 with
        | Some (l, s') => Some (t0 ++ [l], s')
        | None => None
        end
    | None => None
    end.
Proof.
  revert s. induction sched as [|th0 sched IH]; intros s; simpl.
  - by destruct (sched_step handler th s) as [[l s']|].
  - destruct (sched_step handler th0 s) as [[l0 s0]|]; [|done].
    rewrite IH. destruct (exec handler sched s0) as [[t1 s1]|]; [|done].
    by destruct (sched_step handler th s1) as [[l s']|].
Qed.

(** Induction over the executions from a given state. *)
Lemma exec_rev_ind (P : list Label -> State -> Prop) (s0 : State) :
  P [] s0 ->
  (forall t s th l s',
      P t s -> sched_step handler th s = Some (l, s') -> P (t ++ [l]) s') ->
  forall sched t s, exec handler sched s0 = Some (t, s) -> P t s.
Proof.
  intros Hnil Hsnoc sched.
  induction sched as [|th sched IH] using rev_ind; intros t s.
  - by intros [= <- <-].
  - rewrite exec_snoc.
    destruct (exec handler sched s0) as [[t1 s1]|]; [|done].
    destruct (sched_step handler th s1) as [[l s']|] eqn:E; [|done].
    intros [= <- <-]. eauto.
Qed.

Lemma exec_Inv (messages : list dict) (sched : list Thread)
    (t : list Label) (s : State) :
  exec handler sched (initial messages) = Some (t, s) -> Inv handler s.
Proof.
  apply (exec_rev_ind (fun _ s => Inv handler s)).
  - apply Inv_initial.
  - intros ? ? ? ? ?. apply Inv_sched_step.
Qed.

(** The observations of an execution, extended by one step. *)
Lemma puts_snoc (t : list Label) (l : Label) :
  puts (t ++ [l]) = puts t ++ option_list (put_of l).
Proof. unfold puts. rewrite omap_app. simpl. by destruct (put_of l). Qed.

Lemma gets_snoc (t : list Label) (l : Label) :
  gets (t ++ [l]) = gets t ++ option_list (got_of l).
Proof. unfold gets. rewrite omap_app. simpl. by destruct (got_of l). Qed.

Lemma answered_snoc (t : list Label) (l : Label) :
  answered (t ++ [l]) = answered t ++ option_list (answer_of l).
Proof.
  unfold answered. rewrite omap_app. simpl. by destruct (answer_of l).
Qed.

Lemma frames_snoc (t : list Label) (l : Label) :
  frames (t ++ [l]) = frames t ++ option_list (frame_of l).
Proof. unfold frames. rewrite omap_app. simpl. by destruct (frame_of l). Qed.

Lemma reader_labels_snoc (t : list Label) (l : Label) :
  reader_labels (t ++ [l])
  = reader_labels t ++ (if is_reader_label l then [l] else []).
Proof.
  unfold reader_labels. rewrite List.filter_app. simpl.
  by destruct (is_reader_label l).
Qed.

Lemma snoc_split {A} (l t1 t2 : list A) (x y : A) :
  l ++ [x] = t1 ++ y :: t2 ->
  (t2 = [] /\ l = t1 /\ x = y)
  \/ (exists t2', t2 = t2' ++ [x] /\ l = t1 ++ y :: t2').
Proof.
  destruct t2 as [|z t2 _] using rev_ind; intros H.
  - left. apply app_inj_tail in H as [-> ->]. done.
  - right. exists t2.
    change (y :: t2 ++ [z]) with ((y :: t2) ++ [z]) in H.
    rewrite app_assoc in H. apply app_inj_tail in H as [-> ->]. done.
Qed.

Lemma suffix_snoc {A} (k rl : list A) (x : A) :
  k `suffix_of` rl -> (k ++ [x]) `suffix_of` (rl ++ [x]).
Proof. intros [p ->]. exists p. by rewrite app_assoc. Qed.

Lemma order_snoc (rl : list Label) (l : Label) :
  (forall t1 r t2, rl = t1 ++ LPut (Some r) :: t2 ->
                   [LRecv (Some r); LJoin; LEventClear] `suffix_of` t1) ->
  (forall r, l = LPut (Some r) ->
             [LRecv (Some r); LJoin; LEventClear] `suffix_of` rl) ->
  forall t1 r t2, rl ++ [l] = t1 ++ LPut (Some r) :: t2 ->
                  [LRecv (Some r); LJoin; LEventClear] `suffix_of` t1.
Proof.
  intros Hold Hnew t1 r t2 Heq.
  apply snoc_split in Heq as [(_ & -> & ->)|(t2' & _ & ->)]; eauto.
Qed.

Lemma flag_after_snoc (rl : list Label) (l : Label) :
  flag_after (rl ++ [l]) = flag_step (flag_after rl) l.
Proof. unfold flag_after. by rewrite foldl_app. Qed.

Lemma flag_after_set (rl : list Label) :
  flag_after rl = true -> LEventSet ∈ rl.
Proof.
  induction rl as [|l rl IH] using rev_ind; [done|].
  rewrite flag_after_snoc, elem_of_app, list_elem_of_singleton.
  destruct l; simpl; auto; done.
Qed.

Ltac hist_snoc :=
  unfold queued, executing, ahead; simpl;
  rewrite ?puts_snoc, ?gets_snoc, ?answered_snoc, ?frames_snoc,
    ?reader_labels_snoc;
  simpl; rewrite ?app_nil_r, ?flag_after_snoc;
  simpl; rewrite ?app_nil_r.

Ltac hist_order :=
  match goal with
  | |- forall t1 r t2, _ ++ [_] = _ -> _ =>
      apply order_snoc; [done | intros ? [=]; subst; try done]
  end.

Ltac hist_step := constructor; hist_snoc; try done; try hist_order.

(** The history relation is kept by every step of either thread. *)
Lemma Hist_reader_step (messages : list dict) (t : list Label)
    (s s' : State) (l : Label) :
  Hist messages t s -> reader_step s = Some (l, s') ->
  Hist messages (t ++ [l]) s'.
Proof.
  intros [Hp Hg Hc Hs Ht Hf Ho] Hstep.
  unfold reader_step in Hstep.
  destruct s as [ib ev q snt lg rd mn]; simpl in *.
  unfold queued, executing, ahead in *; simpl in *.
  destruct rd; simpl in *; rewrite ?app_nil_r in Hc.
  - destruct ib as [|m rest]; simplify_eq; simpl in *.
    + rewrite ?app_nil_r in Hc. hist_step.
    + pose proof (classify_cases m) as Hcl.
      hist_step.
      * simpl in Hc. rewrite Hc.
        destruct (truthy m); [|done].
        destruct (classify m); try done; by subst.
      * destruct (truthy m); [|done].
        destruct (classify m); try done; subst.
        by apply suffix_app_r.
  - simplify_eq. hist_step.
  - simplify_eq. hist_step.
  - destruct (Queue.join q); simplify_eq.
    hist_step.
    by apply (suffix_snoc [_]).
  - simplify_eq. hist_step.
    by apply (suffix_snoc [_; _]).
  - destruct (Queue.put _ q) as [q'|] eqn:Ep; simplify_eq.
    unfold Queue.put in Ep. destruct (Queue.full q); simplify_eq. simpl.
    hist_step.
    + rewrite Hp, omap_app, app_assoc. done.
    + rewrite Hc, <- app_assoc. done.
  - simplify_eq. hist_step.
  - simplify_eq. hist_step.
  - destruct (Queue.put _ q) as [q'|] eqn:Ep; simplify_eq.
    unfold Queue.put in Ep. destruct (Queue.full q); simplify_eq. simpl.
    hist_step.
    rewrite Hp, omap_app. simpl. by rewrite app_nil_r.
  - done.
Qed.

Lemma Hist_main_step (messages : list dict) (t : list Label)
    (s s' : State) (l : Label) :
  Hist messages t s -> main_step handler s = Some (l, s') ->
  Hist messages (t ++ [l]) s'.
Proof.
  intros [Hp Hg Hc Hs Ht Hf Ho] Hstep.
  unfold main_step in Hstep.
  destruct s as [ib ev q snt lg rd mn]; simpl in *.
  unfold queued, executing, ahead in *; simpl in *.
  destruct mn as [|r h| | | |e]; simpl in *; rewrite ?app_nil_r in Hg.
  - unfold Queue.get in Hstep.
    destruct q as [mx items unf]; simpl in *.
    destruct items as [|[r|] rest]; simplify_eq; simpl in *.
    + hist_step.
      * rewrite Hp, <- app_assoc. done.
      * by rewrite Hg.
    + hist_step.
  - destruct h as [data|e|name kwargs k|k]; simplify_eq; hist_step.
    all: try (by rewrite Hs).
  - destruct (Queue.task_done q) as [q'|e] eqn:Etd; simplify_eq.
    + unfold Queue.task_done in Etd.
      destruct (Queue.unfinished_tasks q); simplify_eq. hist_step.
    + hist_step.
  - destruct rd; simplify_eq. simpl in Hc. rewrite app_nil_r in Hc.
    hist_step.
  - done.
  - done.
Qed.

Lemma Hist_sched_step (messages : list dict) (t : list Label) (th : Thread)
    (s s' : State) (l : Label) :
  Hist messages t s -> sched_step handler th s = Some (l, s') ->
  Hist messages (t ++ [l]) s'.
Proof.
  destruct th; simpl; eauto using Hist_reader_step, Hist_main_step.
Qed.

Lemma Hist_initial (messages : list dict) :
  Hist messages [] (initial messages).
Proof.
  constructor; try done.
  intros t1 r t2 H. simpl in H. by destruct t1.
Qed.

Lemma exec_Hist (messages : list dict) (sched : list Thread)
    (t : list Label) (s : State) :
  exec handler sched (initial messages) = Some (t, s) -> Hist messages t s.
Proof.
  apply (exec_rev_ind (Hist messages)).
  - apply Hist_initial.
  - intros ? ? ? ? ?. apply Hist_sched_step.
Qed.









(** A dict with an entry is truthy. *)
Lemma truthy_lookup (m : dict) (k : string) (v : value) :
  m !! k = Some v -> truthy m = true.
Proof.
  intros H. unfold truthy. rewrite bool_decide_eq_false_2; [done|].
  intros Hsz. apply map_size_empty_iff in Hsz. subst m.
  by rewrite lookup_empty in H.
Qed.

Lemma omap_id_length {A} (l : list (option A)) :
  Forall is_Some l -> length (omap id l) = length l.
Proof.
  induction 1 as [|x l [r ->] _ IH]; simpl; [done|]. f_equal. exact IH.
Qed.

(** With the queue counting what it holds, what the main thread is busy
    with and nothing else, the receiver's [join] waits for exactly the
    commands in flight. *)
Lemma unfinished_in_flight (s : State) :
  Inv handler s -> reader s <> RDone ->
  Queue.unfinished_tasks (cmd_queue s) = in_flight s.
Proof.
  intros [Hmax Hunf Hfl Hjoin Hclr Hfin Halive Hsent Hrun] Hrd.
  assert (Hq : Forall is_Some (Queue.queue (cmd_queue s)) /\ drained s = 0)
    by (destruct (reader s); done).
  destruct Hq as [Hall Hd]. rewrite Hunf, Hd. unfold in_flight, queued.
  assert (length (omap id (Queue.queue (cmd_queue s)))
          = length (Queue.queue (cmd_queue s))) as ->.
  { by apply omap_id_length. }
  lia.
Qed.

(** C1, as the code has it. In every state the two threads can reach, at
    most one command is in flight (queued, executing or awaiting
    [task_done]). A truthy message with an action and no signal field takes
    the receiver to the [join]; the [join] goes through exactly when no
    command is in flight; then the flag is cleared; then the command is put,
    which finds the queue empty and the flag still cleared and leaves the
    command as the only one in flight. In the receiver's own steps every
    [put] of a command comes directly after the [recv] of it, the [join] and
    the [clear], in this order; from then on the flag is what the receiver's
    later steps have made it, so it is set only if the receiver has set it
    (for a cancel signal or the end of the stream) after that [put]. *)
Theorem action_submission (messages : list dict) (sched : list Thread)
    (t : list Label) (s : State) :
  exec handler sched (initial messages) = Some (t, s) ->
  in_flight s <= 1
  /\ (forall m rest,
        reader s = RRecv -> inbox s = m :: rest ->
        m !! "signal" = None -> is_Some (m !! "action") ->
        reader_step s
        = Some (LRecv (Some m), at_reader (RJoin m) (with_inbox rest s)))
  /\ (forall r,
        reader s = RJoin r ->
        reader_step s
        = if decide (in_flight s = 0)
          then Some (LJoin, at_reader (RClear r) s) else None)
  /\ (forall r,
        reader s = RClear r ->
        in_flight s = 0
        /\ reader_step s
           = Some (LEventClear, at_reader (RPut r) (with_event false s)))
  /\ (forall r,
        reader s = RPut r ->
        in_flight s = 0 /\ event s = false
        /\ exists s', reader_step s = Some (LPut (Some r), s')
                      /\ queued s' = [r] /\ in_flight s' = 1
                      /\ event s' = false /\ reader s' = RRecv)
  /\ (forall t1 r t2,
        reader_labels t = t1 ++ LPut (Some r) :: t2 ->
        [LRecv (Some r); LJoin; LEventClear] `suffix_of` t1
        /\ event s = flag_after t2
        /\ (event s = true -> LEventSet ∈ t2)).
Proof.
  intros Hexec.
  pose proof (exec_Inv _ _ _ _ Hexec) as Hinv.
  pose proof (exec_Hist _ _ _ _ Hexec) as Hhist.
  split; [apply Hinv|].
  split.
  { intros m rest Hrd Hib Hsig [a Hact]. unfold reader_step.
    rewrite Hrd, Hib, (truthy_lookup _ _ _ Hact). unfold classify.
    by rewrite Hsig, Hact. }
  split.
  { intros r Hrd. unfold reader_step, Queue.join. rewrite Hrd.
    rewrite (unfinished_in_flight s Hinv) by (by rewrite Hrd).
    destruct (in_flight s); by case_decide. }
  split.
  { intros r Hrd.
    rewrite <- (unfinished_in_flight s Hinv) by (by rewrite Hrd).
    split; [eapply (inv_joined _ _ Hinv); eauto|].
    unfold reader_step. by rewrite Hrd. }
  split.
  { intros r Hrd.
    assert (Hfl : in_flight s = 0).
    { rewrite <- (unfinished_in_flight s Hinv) by (by rewrite Hrd).
      eapply (inv_joined _ _ Hinv); eauto. }
    pose proof (inv_cleared _ _ Hinv r Hrd) as Hev.
    split; [done|]. split; [done|].
    pose proof (inv_unfinished _ _ Hinv) as Hunf.
    rewrite (inv_joined _ _ Hinv r (or_intror Hrd)) in Hunf.
    destruct (Queue.queue (cmd_queue s)) as [|x rest] eqn:Eq;
      [|simpl in Hunf; lia].
    unfold reader_step, Queue.put, Queue.full.
    rewrite Hrd, Eq, (inv_maxsize _ _ Hinv). simpl.
    eexists. split; [reflexivity|].
    unfold in_flight, queued, busy in *. simpl in *.
    destruct (main s); simpl in *; try done; lia. }
  intros t1 r t2 Heq.
  pose proof (hist_order _ _ _ Hhist _ _ _ Heq) as Hord.
  split; [done|].
  assert (Hev : event s = flag_after t2).
  { rewrite (hist_flag _ _ _ Hhist), Heq. destruct Hord as [k ->].
    unfold flag_after. by rewrite !foldl_app. }
  split; [done|]. rewrite Hev. apply flag_after_set.
Qed.





(** C6. A message with a signal field: the receiver reads it and, when the
    signal is the string "cancel", and only then, sets the flag; any other
    signal is logged as unhandled and the flag stays as it was. Either way
    nothing is sent, the queue and the main thread are untouched, and the
    receiver is back at [recv] with the rest of the stream. *)
Theorem signal_handling (s : State) (m : dict) (rest : list dict) (v : value) :
  reader s = RRecv -> inbox s = m :: rest -> m !! "signal" = Some v ->
  exists s',
    exec handler [Reader; Reader] s
    = Some ([LRecv (Some m); if is_cancel v then LEventSet else LUnhandled m],
            s')
    /\ (is_cancel v = true <-> v = VStr "cancel")
    /\ event s' = (if is_cancel v then true else event s)
    /\ logged s'
       = (if is_cancel v then logged s
          else logged s ++ [UnhandledSignal m])
    /\ cmd_queue s' = cmd_queue s /\ sent s' = sent s
    /\ main s' = main s /\ reader s' = RRecv /\ inbox s' = rest.
Proof.
  intros Hrd Hib Hsig. simpl. unfold reader_step at 1.
  rewrite Hrd, Hib, (truthy_lookup _ _ _ Hsig). unfold classify.
  rewrite Hsig.
  assert (Hc : is_cancel v = true <-> v = VStr "cancel").
  { destruct v; simpl; try (split; done).
    rewrite bool_decide_eq_true. split; congruence. }
  destruct (is_cancel v); simpl; eexists; (split; [reflexivity|]); done.
Qed.

(** C9, as the code has it. A truthy message with neither a signal nor an
    action field: the receiver reads it, sends the error frame for
    [Exception("Unsupported message type")], leaves the queue and the flag as
    they were and is back at [recv] with the rest of the stream. *)
Theorem unsupported_message (s : State) (m : dict) (rest : list dict) :
  reader s = RRecv -> inbox s = m :: rest -> truthy m = true ->
  m !! "signal" = None -> m !! "action" = None ->
  let e := Exception "Unsupported message type" in
  exists s',
    exec handler [Reader; Reader] s
    = Some ([LRecv (Some m); LError None e], s')
    /\ sent s' = sent s ++ [error_message e]
    /\ error_message e !! "result" = Some (VStr "error")
    /\ error_message e !! "message" = Some (VStr "Unsupported message type")
    /\ cmd_queue s' = cmd_queue s /\ event s' = event s
    /\ main s' = main s /\ reader s' = RRecv /\ inbox s' = rest.
Proof.
  intros Hrd Hib Htr Hsig Hact e. simpl. unfold reader_step at 1.
  rewrite Hrd, Hib, Htr. unfold classify. rewrite Hsig, Hact. simpl.
  eexists. split; [reflexivity|]. done.
Qed.

End PipelineFacts.

(** * The theorems at work on sample traffic *)

Lemma action_submission_witness :
  exists t s,
    exec sample_handler [Reader; Reader; Reader; Reader]
      (initial [get_request; cancel_signal]) = Some (t, s)
    /\ in_flight s <= 1.
Proof.
  eexists _, _. split.
  - vm_compute. reflexivity.
  - eapply (action_submission sample_handler [get_request; cancel_signal]
              [Reader; Reader; Reader; Reader]).
    vm_compute. reflexivity.
Defined.

(** C1 as stated fails: a cancel signal that arrives right after a command
    has been put is handled before the main thread takes the command, which
    then begins with the flag set. *)
Lemma command_begins_cancelled :
  ~ (forall handler messages sched t s r s',
        exec handler sched (initial messages) = Some (t, s) ->
        main_step handler s = Some (LGet (Some r), s') ->
        event s' = false).
Proof.
  intros H.
  pose proof (H sample_handler [get_request; cancel_signal]
                [Reader; Reader; Reader; Reader; Reader; Reader]) as H1.
  vm_compute in H1.
  specialize (H1 _ _ _ _ eq_refl eq_refl).
  discriminate H1.
Qed.



(** One command, then the end of the stream: both threads are over, one
    frame has been sent and the flag is set. *)
Example sample_run_finishes :
  match exec sample_handler
      [Reader; Reader; Reader; Reader; Main; Reader; Reader; Main; Main; Main;
       Reader; Main; Main]
      (initial [get_request]) with
  | Some (t, s) => reader s = RDone /\ main s = DDone /\ length (sent s) = 1
                   /\ event s = true
  | None => False
  end.
Proof. vm_compute. done. Qed.

Lemma signal_handling_witness :
  exists s',
    exec sample_handler [Reader; Reader] (initial [cancel_signal; get_request])
    = Some ([LRecv (Some cancel_signal);
             if is_cancel (VStr "cancel") then LEventSet
             else LUnhandled cancel_signal], s')
    /\ event s' = true.
Proof.
  destruct (signal_handling sample_handler
              (initial [cancel_signal; get_request])
              cancel_signal [get_request] (VStr "cancel")
              eq_refl eq_refl eq_refl) as (s' & Hexec & _ & Hev & _).
  exists s'. split; [exact Hexec | exact Hev].
Defined.

Lemma unsupported_message_witness :
  exists s',
    exec sample_handler [Reader; Reader] (initial [stray_message; get_request])
    = Some ([LRecv (Some stray_message);
             LError None (Exception "Unsupported message type")], s')
    /\ sent s' = [error_message (Exception "Unsupported message type")].
Proof.
  destruct (unsupported_message sample_handler
              (initial [stray_message; get_request])
              stray_message [get_request]
              eq_refl eq_refl eq_refl eq_refl eq_refl)
    as (s' & Hexec & Hsent & _).
  exists s'. split; [exact Hexec | exact Hsent].
Defined.

(** C9 as stated fails: the empty message has neither field, and the
    receiver takes it for the end of the stream. *)
Lemma empty_message_ends_loop :
  ~ (forall handler s m rest,
        reader s = RRecv -> inbox s = m :: rest ->
        m !! "signal" = None -> m !! "action" = None ->
        let e := Exception "Unsupported message type" in
        exists s',
          exec handler [Reader; Reader] s
          = Some ([LRecv (Some m); LError None e], s')
          /\ sent s' = sent s ++ [error_message e]
          /\ reader s' = RRecv /\ inbox s' = rest).
Proof.
  intros H.
  destruct (H sample_handler (initial [∅; get_request]) ∅ [get_request]
              eq_refl eq_refl (lookup_empty _) (lookup_empty _))
    as (s' & Hexec & _).
  vm_compute in Hexec. discriminate Hexec.
Qed.

(** * More facts about the node tree *)

(** The loop of [DevicesNode.list_children], by what it has built after a
    list of devices: as many entries as devices, the [i]-th under the
    numeral of [i]. *)
Lemma foldl_add_device (w : World) (l : list (Device * DeviceInfo)) :
  let out := foldl (DevicesNode.add_device w) (∅, ∅) l in
  size out.1 = length l
  /\ (forall i : nat, out.1 !! (pretty i : string) = device_descriptor w <$> l !! i)
  /\ (forall i : nat, out.2 !! (pretty i : string) = l !! i)
  /\ dom out.1 = dom out.2.
Proof.
  induction l as [|[dev info] l IH] using rev_ind; simpl.
  - split; [done|]. split; [|split]; try (intros i; by rewrite lookup_empty).
    by rewrite !dom_empty_L.
  - rewrite foldl_app. simpl.
    destruct (foldl (DevicesNode.add_device w) (∅, ∅) l) as [devices mapping].
    simpl in *. destruct IH as (Hsize & Hdev & Hmap & Hdom).
    assert (Hfresh : devices !! (pretty (size devices) : string) = None).
    { rewrite Hdev, Hsize. by rewrite lookup_ge_None_2. }
    split; [|split; [|split]]; [| | |by rewrite !dom_insert_L, Hdom].
    + rewrite map_size_insert_None by done. rewrite length_app. simpl. lia.
    + intros i. destruct (decide (i = length l)) as [->|Hne].
      * rewrite Hsize, lookup_insert_eq.
        by rewrite lookup_app_r, Nat.sub_diag by done.
      * rewrite lookup_insert_ne, Hdev
          by (rewrite Hsize; intros H; by apply (inj pretty) in H).
        destruct (decide (i < length l)).
        -- by rewrite lookup_app_l.
        -- rewrite !lookup_ge_None_2; [done| |lia].
           rewrite length_app. simpl. lia.
    + intros i. destruct (decide (i = length l)) as [->|Hne].
      * rewrite Hsize, lookup_insert_eq.
        by rewrite lookup_app_r, Nat.sub_diag by done.
      * rewrite lookup_insert_ne, Hmap
          by (rewrite Hsize; intros H; by apply (inj pretty) in H).
        destruct (decide (i < length l)).
        -- by rewrite lookup_app_l.
        -- rewrite !lookup_ge_None_2; [done| |lia].
           rewrite length_app. simpl. lia.
Qed.

(** What [DevicesNode.list_children] builds when the fingerprint has
    changed. *)
Lemma list_children_rebuilt (self : DevicesNode.t) (w : World) :
  usb_state w <> DevicesNode._state self ->
  let out := DevicesNode.list_children self w in
  size out.1.1 = length (usb_devices w)
  /\ (forall i : nat,
        out.1.1 !! (pretty i : string)
        = device_descriptor w <$> usb_devices w !! i)
  /\ (forall i : nat,
        DevicesNode._device_mapping out.1.2 !! (pretty i : string)
        = usb_devices w !! i)
  /\ (forall k, is_Some (out.1.1 !! k) ->
                exists i : nat, i < length (usb_devices w) /\ k = pretty i).
Proof.
  intros Hne.
  pose proof (DevicesNode_ids_sequential self w Hne) as Hdom.
  unfold DevicesNode.list_children, scan_devices, list_all_devices in *.
  rewrite decide_False in * by done.
  pose proof (foldl_add_device
                (record CListAllDevices (record CScanDevices w))
                (usb_devices w)) as Hfold.
  destruct (foldl _ _ _) as [devices mapping]. simpl in *.
  destruct Hfold as (Hsize & Hdev & Hmap & _).
  split; [done|]. split; [done|]. split; [done|].
  intros k Hk. apply elem_of_dom in Hk. rewrite Hdom in Hk.
  apply elem_of_list_to_set, list_elem_of_fmap in Hk as (i & -> & Hi).
  apply elem_of_seq in Hi. exists i. split; [lia|done].
Qed.

(** X1. When the fingerprint differs from the cached one,
    [DevicesNode.list_children] lists exactly the attached devices, in the
    order [list_all_devices] gives them: the [i]-th under the decimal numeral
    of [i], with its pid and name as descriptor and with itself and its info
    as backing entry; no other identifier is listed. The new fingerprint is
    cached, the external calls are [scan_devices] and [list_all_devices], and
    no entropy is drawn. *)
Theorem devices_rebuild (self : DevicesNode.t) (w : World) :
  usb_state w <> DevicesNode._state self ->
  let out := DevicesNode.list_children self w in
  size out.1.1 = length (usb_devices w)
  /\ (forall i : nat,
        out.1.1 !! (pretty i : string)
        = device_descriptor w <$> usb_devices w !! i)
  /\ (forall i : nat,
        DevicesNode._device_mapping out.1.2 !! (pretty i : string)
        = usb_devices w !! i)
  /\ (forall k, is_Some (out.1.1 !! k) ->
                exists i : nat, i < length (usb_devices w) /\ k = pretty i)
  /\ DevicesNode._state out.1.2 = usb_state w
  /\ trace out.2 = trace w ++ [CScanDevices; CListAllDevices]
  /\ entropy_used out.2 = entropy_used w.
Proof.
  intros Hne out.
  destruct (list_children_rebuilt self w Hne) as (Hsize & Hdev & Hmap & Hk).
  repeat (split; [done|]).
  subst out. unfold DevicesNode.list_children, scan_devices, list_all_devices.
  rewrite decide_False by done.
  destruct (foldl _ _ _) as [devices mapping]. simpl.
  split; [done|]. split; [|done]. by rewrite <- app_assoc.
Qed.

Lemma devices_rebuild_witness :
  let w := sample_world 1 [(sample_key, sample_info)] in
  (DevicesNode.list_children DevicesNode.init w).1.1 !! "0"
  = Some (device_descriptor w (sample_key, sample_info)).
Proof.
  intros w.
  apply (proj1 (proj2 (devices_rebuild DevicesNode.init w
                         ltac:(vm_compute; discriminate))) 0).
Defined.

(** The listing and the backing entries of a [DevicesNode] have the same
    identifiers, from the start and after every [list_children]. *)
Lemma devices_consistent_init : devices_consistent DevicesNode.init.
Proof. unfold devices_consistent. simpl. by rewrite !dom_empty_L. Qed.

Lemma devices_consistent_list_children (self : DevicesNode.t) (w : World) :
  devices_consistent self ->
  devices_consistent (DevicesNode.list_children self w).1.2.
Proof.
  unfold devices_consistent, DevicesNode.list_children, scan_devices,
    list_all_devices.
  intros Hc. case_decide; simpl; [done|].
  pose proof (foldl_add_device
                (record CListAllDevices (record CScanDevices w))
                (usb_devices w)) as Hfold.
  destruct (foldl _ _ _) as [devices mapping]. simpl in *. apply Hfold.
Qed.

(** X2. [DevicesNode.create_child] on a node whose listing and backing
    entries go together: the listing is refreshed exactly as by
    [list_children]; a name in the refreshed listing yields a [DeviceNode]
    on the backing device with its info, any other name goes to the
    inherited [create_child]; the look-up of the backing entry never fails
    with a [KeyError]. *)
Theorem devices_create_child (self : DevicesNode.t) (name : string) (w : World) :
  devices_consistent self ->
  let out := DevicesNode_create_child self name w in
  let listed := DevicesNode.list_children self w in
  out.1.2 = listed.1.2 /\ out.2 = listed.2
  /\ devices_consistent out.1.2
  /\ match listed.1.1 !! name with
     | Some _ =>
         exists dev info,
           DevicesNode._device_mapping listed.1.2 !! name = Some (dev, info)
           /\ out.1.1 = Child {| DeviceNode._device := dev;
                                 DeviceNode._info := Some info |}
     | None => out.1.1 = Super name
     end.
Proof.
  intros Hc out listed.
  pose proof (devices_consistent_list_children self w Hc) as Hc'.
  pose proof (DevicesNode_after self w) as [_ Hdev].
  subst out listed. unfold DevicesNode_create_child.
  destruct (DevicesNode.list_children self w) as [[children self1] w1].
  simpl in *. subst children.
  destruct (DevicesNode._devices self1 !! name) as [d|] eqn:Ed.
  - assert (Hin : name ∈ dom (DevicesNode._device_mapping self1)).
    { rewrite <- Hc'. apply elem_of_dom. eauto. }
    apply elem_of_dom in Hin as [[dev info] Hm]. rewrite Hm. simpl.
    repeat split; try done. by exists dev, info.
  - simpl. done.
Qed.

(** The loop of [ReadersNode.list_children], by what it has built after a
    list of readers: each reader under the identifier drawn for it, a later
    reader replacing an earlier one with the same identifier; four bytes of
    entropy are used for each. *)
Lemma foldl_add_reader (w : World) (l : list Device) :
  let out := foldl ReadersNode.add_reader (∅, ∅, w) l in
  out.1.1 = reader_descriptor <$> out.1.2
  /\ out.1.2 = list_to_map (reverse (imap (fun i d => (draw w i, d)) l))
  /\ entropy out.2 = entropy w
  /\ entropy_used out.2 = entropy_used w + 4 * length l
  /\ trace out.2 = trace w ++ replicate (length l) (CUrandom 4).
Proof.
  induction l as [|d l IH] using rev_ind.
  - simpl. rewrite app_nil_r, fmap_empty. repeat split; try done.
  - rewrite foldl_app. cbn [foldl].
    destruct (foldl ReadersNode.add_reader (∅, ∅, w) l)
      as [[readers mapping] w1].
    cbn [fst snd] in IH. destruct IH as (Hr & Hm & He & Hu & Ht).
    unfold ReadersNode.add_reader, urandom.
    cbn [fst snd entropy entropy_used trace].
    rewrite !imap_app, !reverse_app. cbn [imap reverse app].
    rewrite Nat.add_0_r, length_app. cbn [length].
    assert (Hid : hex (map (entropy w1) (seq (entropy_used w1) 4))
                  = draw w (length l)).
    { unfold draw, block. by rewrite He, Hu. }
    rewrite Hid, Hr, Hm, Hu, Ht, fmap_insert.
    repeat split; try done; try lia.
    rewrite <- app_assoc. f_equal.
    replace (length l + 1) with (S (length l)) by lia.
    by rewrite replicate_S_end.
Qed.

(** The identifiers of an indexed list of entries. *)
Lemma imap_keys {A B} (f : nat -> B) (l : list A) :
  (imap (fun i d => (f i, d)) l).*1 = f <$> seq 0 (length l).
Proof.
  induction l as [|d l IH] using rev_ind; [done|].
  rewrite imap_app, fmap_app, IH, length_app, seq_app, fmap_app. simpl.
  by rewrite Nat.add_0_r.
Qed.

Lemma elem_of_imap_pair {A B} (f : nat -> B) (l : list A) (k : B) (d : A) :
  (k, d) ∈ imap (fun i d => (f i, d)) l <->
  exists i, l !! i = Some d /\ k = f i.
Proof.
  rewrite list_elem_of_lookup. split.
  - intros (i & Hi). rewrite list_lookup_imap in Hi.
    destruct (l !! i) as [d'|] eqn:E; simplify_eq/=. eauto.
  - intros (i & Hi & ->). exists i. by rewrite list_lookup_imap, Hi.
Qed.

(** [bytes.hex()] is one to one, and twice as long as the bytes. *)
Lemma hex_digit_inj (n m : N) :
  (n < 16)%N -> (m < 16)%N -> hex_digit n = hex_digit m -> n = m.
Proof.
  intros Hn Hm.
  assert (Hcases : forall k : N, (k < 16)%N ->
            (k = 0 \/ k = 1 \/ k = 2 \/ k = 3 \/ k = 4 \/ k = 5 \/ k = 6
             \/ k = 7 \/ k = 8 \/ k = 9 \/ k = 10 \/ k = 11 \/ k = 12
             \/ k = 13 \/ k = 14 \/ k = 15)%N) by (intros; lia).
  pose proof (Hcases n Hn) as Hn'. pose proof (Hcases m Hm) as Hm'.
  clear Hcases Hn Hm.
  repeat (destruct Hn' as [->|Hn']); try subst n;
    repeat (destruct Hm' as [->|Hm']); try subst m; done.
Qed.

Lemma byte_to_N_inj (a b : byte) : Byte.to_N a = Byte.to_N b -> a = b.
Proof.
  intros H. apply (f_equal Byte.of_N) in H.
  rewrite !Byte.of_to_N in H. by injection H.
Qed.

Lemma hex_inj (a b : list byte) : hex a = hex b -> a = b.
Proof.
  revert b. induction a as [|x a IH]; intros [|y b]; simpl; try done.
  intros [= H1 H2 H3]. f_equal; [|by apply IH].
  pose proof (Byte.to_N_bounded x) as Hx.
  pose proof (Byte.to_N_bounded y) as Hy.
  apply hex_digit_inj in H1; [|apply N.Div0.div_lt_upper_bound; lia..].
  apply hex_digit_inj in H2; [|apply N.mod_lt; lia..].
  apply byte_to_N_inj.
  rewrite (N.div_mod (Byte.to_N x) 16), (N.div_mod (Byte.to_N y) 16) by lia.
  by rewrite H1, H2.
Qed.

Lemma hex_length (bs : list byte) :
  String.length (hex bs) = 2 * length bs.
Proof. induction bs as [|b bs IH]; simpl; [done|]. rewrite IH. lia. Qed.

(** A map built from a list has at most as many entries as the list, and
    fewer when a key comes twice. *)
Lemma size_list_to_map_le {V} (l : list (string * V)) :
  size (list_to_map l : gmap string V) <= length l.
Proof.
  induction l as [|[k v] l IH]; simpl; [by rewrite map_size_empty|].
  destruct ((list_to_map l : gmap string V) !! k) eqn:E.
  - rewrite map_size_insert_Some by eauto. lia.
  - rewrite map_size_insert_None by done. lia.
Qed.

Lemma size_list_to_map_lt {V} (l : list (string * V)) :
  ~ NoDup l.*1 -> size (list_to_map l : gmap string V) < length l.
Proof.
  induction l as [|[k v] l IH]; simpl; intros Hdup.
  - destruct Hdup. constructor.
  - pose proof (size_list_to_map_le l) as Hle.
    destruct ((list_to_map l : gmap string V) !! k) eqn:E.
    + rewrite map_size_insert_Some by eauto. lia.
    + rewrite map_size_insert_None by done.
      apply not_elem_of_list_to_map_2 in E.
      assert (~ NoDup l.*1) as Hl by (intros Hl; apply Hdup; by constructor).
      apply IH in Hl. lia.
Qed.

(** X4. When the set of names of the visible readers differs from the
    cached one, [ReadersNode.list_children] calls [list_devices] and then
    [os.urandom(4)] once for each visible reader, using four bytes of
    entropy each. Every descriptor listed is the name of the backing reader
    under the same identifier; every identifier has eight characters and is
    the one drawn for a visible reader, and no reader whose lower-cased name
    contains [YK_READER_NAME] is behind any of them. There are never more
    children than visible readers. *)
Theorem readers_rebuild (self : ReadersNode.t) (w : World) :
  let vis := ReadersNode.visible (pcsc_devices w) in
  ReadersNode._state self <> ReadersNode.names vis ->
  let out := ReadersNode.list_children self w in
  trace out.2 = trace w ++ CListDevices :: replicate (length vis) (CUrandom 4)
  /\ entropy_used out.2 = entropy_used w + 4 * length vis
  /\ out.1.1 = reader_descriptor <$> ReadersNode._reader_mapping out.1.2
  /\ (forall k d,
        ReadersNode._reader_mapping out.1.2 !! k = Some d ->
        String.length k = 8
        /\ contains YK_READER_NAME (reader_name_lower d) = false
        /\ exists i, vis !! i = Some d /\ k = draw w i)
  /\ size out.1.1 <= length vis.
Proof.
  intros vis Hne out. subst out.
  unfold ReadersNode.list_children, list_devices. fold vis.
  rewrite decide_False by done.
  pose proof (foldl_add_reader (record CListDevices w) vis) as Hfold.
  destruct (foldl _ _ _) as [[readers mapping] w2]. simpl in *.
  destruct Hfold as (Hr & Hm & He & Hu & Ht).
  split; [by rewrite Ht, <- app_assoc|]. split; [done|]. split; [done|].
  split.
  - intros k d Hk. rewrite Hm in Hk.
    apply elem_of_list_to_map_2, elem_of_reverse, elem_of_imap_pair in Hk
      as (i & Hi & ->).
    split; [unfold draw, block; by rewrite hex_length, length_map, length_seq|].
    split; [|eauto].
    apply list_elem_of_lookup_2, list_elem_of_In in Hi.
    apply List.filter_In in Hi as [_ Hi]. by apply negb_true_iff in Hi.
  - rewrite Hr, map_size_fmap, Hm.
    etrans; [apply size_list_to_map_le|].
    by rewrite length_reverse, length_imap.
Qed.

(** X5. When the four-byte draws for the visible readers are pairwise
    different, every visible reader is listed: under the identifier drawn
    for it, with its name as descriptor and itself as backing entry, and
    there are as many children as visible readers. *)
Theorem readers_distinct_draws (self : ReadersNode.t) (w : World) :
  let vis := ReadersNode.visible (pcsc_devices w) in
  ReadersNode._state self <> ReadersNode.names vis ->
  NoDup (block w <$> seq 0 (length vis)) ->
  let out := ReadersNode.list_children self w in
  size out.1.1 = length vis
  /\ forall i d,
       vis !! i = Some d ->
       out.1.1 !! draw w i = Some (reader_descriptor d)
       /\ ReadersNode._reader_mapping out.1.2 !! draw w i = Some d.
Proof.
  intros vis Hne Hnd out. subst out.
  unfold ReadersNode.list_children, list_devices. fold vis.
  rewrite decide_False by done.
  pose proof (foldl_add_reader (record CListDevices w) vis) as Hfold.
  destruct (foldl _ _ _) as [[readers mapping] w2]. simpl in *.
  destruct Hfold as (Hr & Hm & _).
  assert (Hkeys : NoDup (reverse (imap (fun i d => (draw (record CListDevices w) i, d)) vis)).*1).
  { rewrite fmap_reverse, reverse_Permutation, imap_keys.
    change (draw (record CListDevices w)) with (hex ∘ block w).
    rewrite list_fmap_compose. apply NoDup_fmap_2; [|done].
    intros a b. apply hex_inj. }
  split.
  - rewrite Hr, map_size_fmap, Hm.
    rewrite <- size_dom, dom_list_to_map_L, size_list_to_set by done.
    by rewrite length_fmap, length_reverse, length_imap.
  - intros i d Hi.
    assert (Hmi : mapping !! draw w i = Some d).
    { rewrite Hm. apply elem_of_list_to_map_1; [done|].
      apply elem_of_reverse, elem_of_imap_pair. eauto. }
    split; [|done]. by rewrite Hr, lookup_fmap, Hmi.
Qed.

(** X6. When two visible readers draw the same four bytes, the listing has
    fewer children than there are visible readers: one of them is lost. *)
Theorem readers_collision (self : ReadersNode.t) (w : World) (i j : nat) :
  let vis := ReadersNode.visible (pcsc_devices w) in
  ReadersNode._state self <> ReadersNode.names vis ->
  i < j -> j < length vis -> block w i = block w j ->
  size (ReadersNode.list_children self w).1.1 < length vis.
Proof.
  intros vis Hne Hij Hj Hblock.
  unfold ReadersNode.list_children, list_devices. fold vis.
  rewrite decide_False by done.
  pose proof (foldl_add_reader (record CListDevices w) vis) as Hfold.
  destruct (foldl _ _ _) as [[readers mapping] w2]. simpl in *.
  destruct Hfold as (Hr & Hm & _).
  rewrite Hr, map_size_fmap, Hm.
  eapply Nat.lt_le_trans; [apply size_list_to_map_lt|].
  - rewrite fmap_reverse, imap_keys. intros Hnd.
    rewrite reverse_Permutation in Hnd.
    assert (i = j); [|lia].
    eapply NoDup_lookup; [exact Hnd| |].
    + rewrite list_lookup_fmap, lookup_seq_lt by lia. reflexivity.
    + rewrite list_lookup_fmap, lookup_seq_lt by lia. simpl.
      unfold draw. change (block (record CListDevices w)) with (block w).
      by rewrite Hblock.
  - by rewrite length_reverse, length_imap.
Qed.

(** X3. After a change of fingerprint the numeral of [i] resolves to the
    [i]-th attached device with its info, and a name that is no numeral
    below the number of attached devices goes to the inherited
    [create_child]. *)
Theorem devices_resolve_index (self : DevicesNode.t) (w : World) :
  usb_state w <> DevicesNode._state self ->
  (forall (i : nat) dev info,
      usb_devices w !! i = Some (dev, info) ->
      (DevicesNode_create_child self (pretty i) w).1.1
      = Child {| DeviceNode._device := dev; DeviceNode._info := Some info |})
  /\ (forall name,
        (forall i : nat, i < length (usb_devices w) -> name <> pretty i) ->
        (DevicesNode_create_child self name w).1.1 = Super name).
Proof.
  intros Hne.
  destruct (list_children_rebuilt self w Hne) as (_ & Hdev & Hmap & Hkeys).
  unfold DevicesNode_create_child.
  destruct (DevicesNode.list_children self w) as [[children self1] w1].
  simpl in *. split.
  - intros i dev info Hi. by rewrite Hdev, Hmap, Hi.
  - intros name Hname.
    destruct (children !! name) as [v|] eqn:E; [|done].
    destruct (Hkeys name) as (i & Hi & ->); [eauto|].
    by destruct (Hname i Hi).
Qed.

Lemma devices_resolve_index_witness :
  let w := sample_world 1 [(sample_key, sample_info)] in
  (DevicesNode_create_child DevicesNode.init "0" w).1.1
  = Child {| DeviceNode._device := sample_key;
             DeviceNode._info := Some sample_info |}.
Proof.
  intros w.
  apply (proj1 (devices_resolve_index DevicesNode.init w
                  ltac:(vm_compute; discriminate)) 0 sample_key sample_info).
  reflexivity.
Defined.

Lemma devices_create_child_witness :
  let w := sample_world 1 [(sample_key, sample_info)] in
  devices_consistent DevicesNode.init
  /\ (DevicesNode_create_child DevicesNode.init "7" w).2
     = (DevicesNode.list_children DevicesNode.init w).2.
Proof.
  intros w. split; [apply devices_consistent_init|].
  apply (devices_create_child DevicesNode.init "7" w devices_consistent_init).
Defined.

(** The descriptors a [ReadersNode] lists are those of its backing
    readers, from the start and after every [list_children]. *)
Lemma readers_consistent_init : readers_consistent ReadersNode.init.
Proof. unfold readers_consistent. simpl. by rewrite fmap_empty. Qed.

Lemma readers_consistent_list_children (self : ReadersNode.t) (w : World) :
  readers_consistent self ->
  readers_consistent (ReadersNode.list_children self w).1.2.
Proof.
  unfold readers_consistent, ReadersNode.list_children, list_devices.
  intros Hc. case_decide; simpl; [done|].
  pose proof (foldl_add_reader (record CListDevices w)
                (ReadersNode.visible (pcsc_devices w))) as Hfold.
  destruct (foldl _ _ _) as [[readers mapping] w2]. simpl in *. apply Hfold.
Qed.

(** X7. [ReadersNode.create_child] on the node as [list_children] leaves
    it: a name in the returned listing yields a [DeviceNode] on the backing
    reader, without an info object, and the descriptor listed is that
    reader's name; any other name goes to the inherited [create_child]; the
    look-up of the backing reader never fails with a [KeyError]. *)
Theorem readers_resolve_listed (self : ReadersNode.t) (w : World)
    (name : string) :
  readers_consistent self ->
  let out := ReadersNode.list_children self w in
  readers_consistent out.1.2
  /\ match out.1.1 !! name with
     | Some v =>
         exists d,
           v = reader_descriptor d
           /\ ReadersNode_create_child out.1.2 name
              = Child {| DeviceNode._device := d; DeviceNode._info := None |}
     | None => ReadersNode_create_child out.1.2 name = Super name
     end.
Proof.
  intros Hc out.
  pose proof (readers_consistent_list_children self w Hc) as Hc'.
  pose proof (ReadersNode_after self w) as [_ Hrd].
  subst out. split; [done|]. rewrite <- Hrd.
  unfold ReadersNode_create_child.
  destruct (ReadersNode.list_children self w) as [[children self1] w1].
  simpl in *. unfold readers_consistent in Hc'.
  destruct (ReadersNode._readers self1 !! name) as [v|] eqn:E; [|done].
  rewrite Hc', lookup_fmap in E.
  destruct (ReadersNode._reader_mapping self1 !! name) as [d|]; [|done].
  simpl in E. injection E as <-. by exists d.
Qed.

Lemma readers_resolve_listed_witness :
  let out := ReadersNode.list_children ReadersNode.init (sample_world 1 []) in
  readers_consistent ReadersNode.init /\ readers_consistent out.1.2.
Proof.
  intros out. split; [apply readers_consistent_init|].
  apply (readers_resolve_listed ReadersNode.init (sample_world 1 []) "2a2a2a2a"
           readers_consistent_init).
Defined.

(** X8. [DeviceNode.get_data] when the first supported kind fails: an
    exception of [open_connection] is passed on after that one attempt, no
    other kind is tried; an exception of [read_info] is passed on after the
    connection has been closed, once. *)
Theorem get_data_errors (self : DeviceNode.t) (w : World) (k : ConnKind) :
  let dev := DeviceNode._device self in
  first_supported dev = Some k ->
  (forall e,
      device_open dev k = Raise e ->
      DeviceNode.get_data self w = (Raise e, record (COpen k) w))
  /\ (forall conn e,
        device_open dev k = Ok conn -> identity w conn = Raise e ->
        DeviceNode.get_data self w
        = (Raise e,
           connection_close conn
             (record (CReadInfo (conn_id conn)) (record (COpen k) w)))
        /\ releases (conn_id conn) (DeviceNode.get_data self w).2
           = S (releases (conn_id conn) w)).
Proof.
  intros dev Hfind. unfold first_supported in Hfind.
  destruct (find_split _ _ _ Hfind) as (l1 & l2 & Heq & Hl1 & Hk).
  unfold DeviceNode.get_data. rewrite Heq, get_data_from_skip by done.
  simpl. fold dev. rewrite Hk. unfold open_connection, read_info. split.
  - by intros e ->.
  - intros conn e -> Hid. simpl. rewrite Hid. split; [done|]. simpl.
    unfold connection_close. rewrite !releases_record. simpl.
    rewrite Nat.eqb_refl. lia.
Qed.

Lemma get_data_errors_witness :
  DeviceNode.get_data
    {| DeviceNode._device := busy_key; DeviceNode._info := None |}
    (sample_world 1 [])
  = (Raise (OSError "Failed to open device"),
     record (COpen OtpConnection) (sample_world 1 [])).
Proof.
  apply (proj1 (get_data_errors
                  {| DeviceNode._device := busy_key; DeviceNode._info := None |}
                  (sample_world 1 []) OtpConnection eq_refl)).
  reflexivity.
Defined.

Lemma readers_rebuild_witness :
  entropy_used
    (ReadersNode.list_children ReadersNode.init (sample_world 1 [])).2 = 4.
Proof.
  apply (proj1 (proj2 (readers_rebuild ReadersNode.init (sample_world 1 [])
                         ltac:(vm_compute; discriminate)))).
Defined.

Lemma readers_distinct_draws_witness :
  let out := ReadersNode.list_children ReadersNode.init varied_world in
  size out.1.1 = 2
  /\ out.1.1 !! "2a2a2a2a" = Some (reader_descriptor sample_reader)
  /\ is_Some (ReadersNode._reader_mapping out.1.2 !! "2b2b2b2b").
Proof.
  assert (Hnd : NoDup (block varied_world
                         <$> seq 0 (length (ReadersNode.visible
                                              (pcsc_devices varied_world))))).
  { vm_compute. apply NoDup_cons. split; [|apply NoDup_singleton].
    intros Hin. apply list_elem_of_singleton in Hin. discriminate Hin. }
  destruct (readers_distinct_draws ReadersNode.init varied_world
              ltac:(vm_compute; discriminate) Hnd) as [Hsize Hall].
  split; [exact Hsize|]. split.
  - exact (proj1 (Hall 0 sample_reader eq_refl)).
  - eexists. exact (proj2 (Hall 1 _ eq_refl)).
Defined.

Lemma readers_collision_witness :
  size (ReadersNode.list_children ReadersNode.init twin_world).1.1 < 2.
Proof.
  apply (readers_collision ReadersNode.init twin_world 0 1
           ltac:(vm_compute; discriminate) ltac:(lia)
           ltac:(vm_compute; lia) eq_refl).
Defined.

(** X9. An accessor, then [get_data] and [close] on the node it returns:
    the connection is opened, read over and closed, in this order and
    nothing else; [get_data] gives the snapshot, or passes on the exception
    of [read_info], and the handle has been released once. *)
Theorem connection_lifecycle (self : DeviceNode.t) (k : ConnKind)
    (conn : Connection) (w : World) :
  supports_connection (DeviceNode._device self) k = true ->
  device_open (DeviceNode._device self) k = Ok conn ->
  exists node w1,
    accessor k self w = (Ok node, w1)
    /\ let read := ConnectionNode.get_data node w1 in
       let w3 := ConnectionNode.close node read.2 in
       read.1 = match identity w conn with
                | Ok info => Ok (info_snapshot info)
                | Raise e => Raise e
                end
       /\ trace w3
          = trace w ++ [COpen k; CReadInfo (conn_id conn); CClose (conn_id conn)]
       /\ releases (conn_id conn) w3 = S (releases (conn_id conn) w).
Proof.
  intros Hs Ho.
  exists {| ConnectionNode._connection := conn |}, (record (COpen k) w).
  split.
  { destruct k; unfold accessor, DeviceNode.ccid, DeviceNode.otp,
      DeviceNode.fido, DeviceNode._create_connection, open_connection;
      by rewrite Hs, Ho. }
  unfold ConnectionNode.get_data, read_info, ConnectionNode.close,
    RpcNode.close, connection_close. simpl.
  destruct (identity w conn) as [info|e]; simpl;
    (split; [done|]); (split; [by rewrite <- !app_assoc|]);
    rewrite !releases_record; simpl; rewrite Nat.eqb_refl; lia.
Qed.

Lemma connection_lifecycle_witness :
  exists node w1,
    accessor OtpConnection
      {| DeviceNode._device := sample_key; DeviceNode._info := None |}
      (sample_world 1 []) = (Ok node, w1)
    /\ trace (ConnectionNode.close node (ConnectionNode.get_data node w1).2)
       = [COpen OtpConnection; CReadInfo 7; CClose 7].
Proof.
  destruct (connection_lifecycle
              {| DeviceNode._device := sample_key; DeviceNode._info := None |}
              OtpConnection (sample_conn OtpConnection) (sample_world 1 [])
              eq_refl eq_refl) as (node & w1 & Hacc & _ & Htrace & _).
  exists node, w1. split; [exact Hacc | exact Htrace].
Defined.

(** * More facts about the command pipeline *)

Section MoreFacts.

Variable handler : value -> value -> value -> Handler.

(** A step of the main thread is none of the receiver's and leaves the
    receiver and the stream alone; a step of the receiver is one of its own
    and leaves the main thread alone. *)
Lemma main_step_not_reader (s s' : State) (l : Label) :
  main_step handler s = Some (l, s') ->
  is_reader_label l = false /\ reader s' = reader s /\ inbox s' = inbox s.
Proof.
  unfold main_step. intros Hstep.
  destruct s as [ib ev q snt lg rd mn]; simpl in *.
  destruct mn as [|r h| | | |e]; simpl in *; try done.
  - destruct (Queue.get q) as [[[r|] q']|]; simplify_eq; done.
  - destruct h; simplify_eq; done.
  - destruct (Queue.task_done q); simplify_eq; done.
  - destruct rd; simplify_eq; done.
Qed.

Lemma reader_step_reader (s s' : State) (l : Label) :
  reader_step s = Some (l, s') ->
  is_reader_label l = true /\ main s' = main s.
Proof.
  unfold reader_step. intros Hstep.
  destruct s as [ib ev q snt lg rd mn]; simpl in *.
  destruct rd; simpl in *; try done.
  - destruct ib; simplify_eq; done.
  - simplify_eq; done.
  - simplify_eq; done.
  - destruct (Queue.join q); simplify_eq; done.
  - simplify_eq; done.
  - destruct (Queue.put _ q); simplify_eq; done.
  - simplify_eq; done.
  - simplify_eq; done.
  - destruct (Queue.put _ q); simplify_eq; done.
Qed.

(** A step of the receiver is the next of the steps it has still to
    take. *)
Lemma reader_step_script (s s' : State) (l : Label) :
  reader_step s = Some (l, s') ->
  reader_rest s = l :: reader_rest s' /\ unread_from s' = unread_from s.
Proof.
  unfold reader_step, reader_rest, unread_from. intros Hstep.
  destruct s as [ib ev q snt lg rd mn]; simpl in *.
  destruct rd; simpl in *; try done.
  - destruct ib as [|m rest]; simplify_eq; simpl; [done|].
    pose proof (classify_cases m) as Hc.
    destruct (truthy m); [|done].
    destruct (classify m); done.
  - simplify_eq; done.
  - simplify_eq; done.
  - destruct (Queue.join q); simplify_eq; done.
  - simplify_eq; done.
  - destruct (Queue.put _ q); simplify_eq; done.
  - simplify_eq; done.
  - simplify_eq; done.
  - destruct (Queue.put _ q); simplify_eq; done.
Qed.

(** The steps the receiver has taken and those it has still to take make
    up the script of the stream. *)
Lemma reader_script_invariant (messages : list dict) (sched : list Thread)
    (t : list Label) (s : State) :
  exec handler sched (initial messages) = Some (t, s) ->
  reader_labels t ++ reader_rest s = reader_script messages
  /\ unread_from s = unread messages.
Proof.
  revert sched t s.
  apply (exec_rev_ind handler
           (fun t s => reader_labels t ++ reader_rest s
                       = reader_script messages
                       /\ unread_from s = unread messages)).
  - split; [|done]. unfold reader_rest. simpl. done.
  - intros t s th l s' [IH1 IH2] Hstep. rewrite reader_labels_snoc.
    destruct th; simpl in Hstep.
    + destruct (reader_step_reader _ _ _ Hstep) as [-> _].
      destruct (reader_step_script _ _ _ Hstep) as [Hr Hu].
      rewrite <- app_assoc. simpl. rewrite <- Hr. by rewrite Hu.
    + destruct (main_step_not_reader _ _ _ Hstep) as (-> & Hrd & Hib).
      rewrite app_nil_r. unfold reader_rest, unread_from in *.
      by rewrite Hrd, Hib.
Qed.

Lemma reader_script_done (messages : list dict) (sched : list Thread)
    (t : list Label) (s : State) :
  exec handler sched (initial messages) = Some (t, s) ->
  reader s = RDone ->
  reader_labels t = reader_script messages /\ inbox s = unread messages.
Proof.
  intros Hexec Hrd.
  destruct (reader_script_invariant _ _ _ _ Hexec) as [H1 H2].
  unfold reader_rest, unread_from in *. rewrite Hrd in *.
  simpl in *. by rewrite app_nil_r in H1.
Qed.

(** X10. Under every schedule the receiver's steps are the ones the stream
    of messages dictates, in order: what it has done so far and what it has
    still to do make up the script of the stream, and once it is over it has
    done all of it. The messages behind the first falsy one are never read:
    they are what is left of the stream. *)
Theorem receiver_in_order (messages : list dict) (sched : list Thread)
    (t : list Label) (s : State) :
  exec handler sched (initial messages) = Some (t, s) ->
  reader_labels t ++ reader_rest s = reader_script messages
  /\ unread_from s = unread messages
  /\ (reader s = RDone ->
      reader_labels t = reader_script messages
      /\ inbox s = unread messages).
Proof.
  intros Hexec.
  destruct (reader_script_invariant _ _ _ _ Hexec) as [H1 H2].
  split; [done|]. split; [done|]. by apply reader_script_done with sched.
Qed.

(** The frames and the unhandled signals in the script of a stream. *)
Lemma frames_reader_script (messages : list dict) :
  frames (reader_script messages)
  = replicate (unsupported messages)
      (error_message (Exception "Unsupported message type"))
  /\ omap unhandled_of (reader_script messages) = unhandled messages.
Proof.
  unfold frames. induction messages as [|m rest [IH1 IH2]]; simpl; [done|].
  pose proof (classify_cases m) as Hc.
  destruct (truthy m); [|done].
  rewrite !omap_app, IH1, IH2.
  destruct (classify m); subst; done.
Qed.

(** X13. Once the receiver is over, the frames it has sent are one error
    frame for [Exception("Unsupported message type")] for each truthy
    message with neither a signal nor an action field before the end of the
    stream, and nothing else; the signals reported as unhandled are the
    signals other than "cancel" before the end of the stream, in order. *)
Theorem receiver_error_frames (messages : list dict) (sched : list Thread)
    (t : list Label) (s : State) :
  exec handler sched (initial messages) = Some (t, s) ->
  reader s = RDone ->
  frames (reader_labels t)
  = replicate (unsupported messages)
      (error_message (Exception "Unsupported message type"))
  /\ omap unhandled_of t = unhandled messages.
Proof.
  intros Hexec Hrd.
  destruct (reader_script_done _ _ _ _ Hexec Hrd) as [Hrl _].
  destruct (frames_reader_script messages) as [H1 H2].
  rewrite Hrl. split; [done|]. rewrite <- H2, <- Hrl.
  unfold reader_labels. clear.
  induction t as [|l t IH]; simpl; [done|].
  destruct l as [| | | | | | | | | |[r|] e| | |]; simpl;
    first [exact IH | f_equal; exact IH].
Qed.

(** A command is a message of the stream with an action and no signal
    field. *)
Lemma commands_classified (messages : list dict) (r : dict) :
  r ∈ commands messages ->
  r ∈ messages /\ r !! "signal" = None /\ is_Some (r !! "action").
Proof.
  induction messages as [|m rest IH]; simpl; [by intros ?%elem_of_nil|].
  destruct (truthy m); [|by intros ?%elem_of_nil].
  unfold classify.
  destruct (m !! "signal") as [v|] eqn:Es.
  - destruct (is_cancel v); intros H; destruct (IH H) as (? & ? & ?);
      (split; [by right|done]).
  - destruct (m !! "action") as [a|] eqn:Ea.
    + intros [->|H]%elem_of_cons.
      * split; [by left|]. split; [done|by eexists].
      * destruct (IH H) as (? & ? & ?). split; [by right|done].
    + intros H. destruct (IH H) as (? & ? & ?). split; [by right|done].
Qed.

(** With an action in the request the handler is called, on the action,
    the target or [[]], and the parameters or [{}]. *)
Lemma invoke_action (r : dict) (action : value) :
  r !! "action" = Some action ->
  invoke handler r
  = handler action (default (VList []) (r !! "target"))
      (default (VDict []) (r !! "params")).
Proof.
  intros Ha. unfold invoke, pop, pop_default. rewrite Ha.
  by rewrite !lookup_delete_ne by done.
Qed.

(** X11. Every request the main thread takes from the queue is a message
    of the stream with an action and no signal field, so
    [request.pop("action")] never raises: the handler is called, on the
    action of the request, on its target, or [[]] when it has none, and on
    its parameters, or [{}] when it has none. *)
Theorem commands_reach_handler (messages : list dict) (sched : list Thread)
    (t : list Label) (s : State) (r : dict) :
  exec handler sched (initial messages) = Some (t, s) ->
  r ∈ gets t ->
  r ∈ messages
  /\ r !! "signal" = None
  /\ exists action,
       r !! "action" = Some action
       /\ invoke handler r
          = handler action (default (VList []) (r !! "target"))
              (default (VDict []) (r !! "params")).
Proof.
  intros Hexec Hr.
  pose proof (exec_Hist _ _ _ _ _ Hexec) as Hhist.
  assert (Hc : r ∈ commands messages).
  { rewrite (hist_commands _ _ _ Hhist), (hist_puts _ _ _ Hhist).
    rewrite !elem_of_app. auto. }
  destruct (commands_classified _ _ Hc) as (Hin & Hsig & [a Ha]).
  split; [done|]. split; [done|]. exists a. split; [done|].
  by apply invoke_action.
Qed.

(** The steps of the main thread, extended by one step. *)
Lemma main_labels_snoc (t : list Label) (l : Label) :
  main_labels (t ++ [l])
  = main_labels t ++ (if is_reader_label l then [] else [l]).
Proof.
  unfold main_labels. rewrite List.filter_app. simpl.
  by destruct (is_reader_label l).
Qed.

Lemma labels_split (t : list Label) :
  length t = length (reader_labels t) + length (main_labels t).
Proof.
  unfold reader_labels, main_labels.
  induction t as [|l t IH]; simpl; [done|].
  destruct (is_reader_label l); simpl; lia.
Qed.

(** What a handler that does not look at the flag becomes does not look at
    it either. *)
Lemma poll_free_leads_to (h h' : Handler) :
  leads_to h h' -> poll_free h -> poll_free h'.
Proof. induction 1; simpl in *; auto. intros H'. by destruct (IHleads_to H'). Qed.

Hypothesis handler_poll_free :
  forall action target params, poll_free (handler action target params).

Lemma invoke_poll_free (r : dict) : poll_free (invoke handler r).
Proof.
  unfold invoke, pop, pop_default.
  destruct (r !! "action"); simpl; [apply handler_poll_free|done].
Qed.

(** The steps the main thread has taken and those it has still to take for
    the command at hand are the scripts of the commands it has taken. *)
Lemma main_script_step (t : list Label) (s s' : State) (th : Thread)
    (l : Label) :
  Inv handler s ->
  main_labels t ++ main_rest (main s)
  = flat_map (command_script handler) (gets t) ++ main_tail (main s) ->
  sched_step handler th s = Some (l, s') ->
  main_labels (t ++ [l]) ++ main_rest (main s')
  = flat_map (command_script handler) (gets (t ++ [l])) ++ main_tail (main s').
Proof.
  intros Hinv IH Hstep.
  pose proof (Inv_sched_step _ _ _ _ _ Hinv Hstep) as Hinv'.
  rewrite main_labels_snoc, gets_snoc.
  destruct th; simpl in Hstep.
  - destruct (reader_step_reader _ _ _ Hstep) as [Hl Hm].
    rewrite Hl, Hm, app_nil_r.
    assert (got_of l = None) as -> by (by destruct l as [| | | | |[?|]| | | | | | | |]).
    simpl. by rewrite app_nil_r.
  - destruct (main_step_not_reader _ _ _ Hstep) as (-> & _ & _).
    pose proof (inv_running _ _ Hinv) as Hrun.
    pose proof (inv_alive _ _ Hinv') as Halive.
    unfold main_step in Hstep.
    destruct s as [ib ev q snt lg rd mn]; simpl in *.
    destruct mn as [|r h| | | |e]; simpl in *; try done.
    + destruct (Queue.get q) as [[[r|] q']|]; simplify_eq; simpl in *.
      * rewrite !app_nil_r in IH. rewrite flat_map_app, IH. simpl.
        rewrite !app_nil_r. unfold command_script.
        by rewrite <- !app_assoc.
      * rewrite !app_nil_r in *. by rewrite IH.
    + pose proof (poll_free_leads_to _ _ (Hrun r h eq_refl)
                    (invoke_poll_free r)) as Hpf.
      destruct h as [data|e|name kwargs k|k]; simplify_eq; simpl in *;
        rewrite ?app_nil_r in *; try done;
        rewrite <- IH, <- ?app_assoc; done.
    + destruct (Queue.task_done q) as [q'|e]; simplify_eq; simpl in *.
      * by rewrite !app_nil_r in *.
      * by destruct (Halive e).
    + destruct rd; simplify_eq. simpl in *. rewrite !app_nil_r in *.
      rewrite IH, <- app_assoc. done.
Qed.

(** X12. When the handler never looks at the flag, the steps of the main
    thread are the same under every schedule: for each command taken, the
    [get], the handler's signals, its response and the [task_done]. Once
    both threads are over these are the scripts of the commands of the
    stream, in order, followed by the [get] of the sentinel and the join,
    and all finished executions have the same number of steps. *)
Theorem main_in_order (messages : list dict) (sched : list Thread)
    (t : list Label) (s : State) :
  exec handler sched (initial messages) = Some (t, s) ->
  main_labels t ++ main_rest (main s)
  = flat_map (command_script handler) (gets t) ++ main_tail (main s)
  /\ (finished s ->
      main_labels t
      = flat_map (command_script handler) (commands messages)
        ++ [LGet None; LThreadJoin]
      /\ length t
         = length (reader_script messages)
           + length (flat_map (command_script handler) (commands messages))
           + 2).
Proof.
  intros Hexec.
  assert (H : Inv handler s
              /\ main_labels t ++ main_rest (main s)
                 = flat_map (command_script handler) (gets t)
                   ++ main_tail (main s)).
  { revert sched t s Hexec.
    apply (exec_rev_ind handler
             (fun t s => Inv handler s
                         /\ main_labels t ++ main_rest (main s)
                            = flat_map (command_script handler) (gets t)
                              ++ main_tail (main s))).
    - split; [apply Inv_initial|done].
    - intros t s th l s' [Hinv IH] Hstep. split.
      + eapply Inv_sched_step; eauto.
      + eapply main_script_step; eauto. }
  destruct H as [Hinv H]. split; [done|].
  intros [Hrd Hm].
  pose proof (exec_Hist _ _ _ _ _ Hexec) as Hhist.
  pose proof (inv_sentinel _ _ Hinv) as Hsent. rewrite Hrd in Hsent.
  unfold drained in Hsent. rewrite Hm in Hsent.
  destruct Hsent as [[_ ?]|[Hq _]]; [done|].
  assert (Hgets : gets t = commands messages).
  { pose proof (hist_puts _ _ _ Hhist) as Hp.
    pose proof (hist_commands _ _ _ Hhist) as Hc.
    unfold queued, ahead in *. rewrite Hq in Hp. rewrite Hrd in Hc.
    simpl in *. rewrite app_nil_r in *. congruence. }
  rewrite Hm, Hgets in H. simpl in H. rewrite app_nil_r in H.
  split; [done|].
  destruct (reader_script_done _ _ _ _ Hexec Hrd) as [Hrl _].
  rewrite (labels_split t), Hrl, H, length_app. simpl. lia.
Qed.

End MoreFacts.

Lemma receiver_in_order_witness :
  exists t s,
    exec sample_handler [Reader; Reader] (initial [cancel_signal; get_request])
    = Some (t, s)
    /\ reader_labels t ++ reader_rest s
       = reader_script [cancel_signal; get_request].
Proof.
  eexists _, _. split.
  - vm_compute. reflexivity.
  - eapply (receiver_in_order sample_handler [cancel_signal; get_request]
              [Reader; Reader]).
    vm_compute. reflexivity.
Defined.

Lemma commands_reach_handler_witness :
  exists t s,
    exec sample_handler [Reader; Reader; Reader; Reader; Main]
      (initial [get_request]) = Some (t, s)
    /\ get_request ∈ gets t
    /\ get_request !! "signal" = None.
Proof.
  eexists _, _. split; [vm_compute; reflexivity|].
  assert (Hin : get_request
                ∈ gets [LRecv (Some get_request); LJoin; LEventClear;
                        LPut (Some get_request); LGet (Some get_request)])
    by (simpl; apply list_elem_of_here).
  split; [vm_compute; vm_compute in Hin; exact Hin|].
  eapply (commands_reach_handler sample_handler [get_request]
            [Reader; Reader; Reader; Reader; Main] _ _ get_request).
  - vm_compute. reflexivity.
  - vm_compute. vm_compute in Hin. exact Hin.
Defined.

Lemma main_in_order_witness :
  exists t s,
    exec echo_handler [Reader; Reader; Reader; Reader; Main; Main]
      (initial [get_request]) = Some (t, s)
    /\ main_labels t ++ main_rest (main s)
       = flat_map (command_script echo_handler) (gets t) ++ main_tail (main s).
Proof.
  eexists _, _. split.
  - vm_compute. reflexivity.
  - eapply (main_in_order echo_handler (fun _ _ _ => I) [get_request]
              [Reader; Reader; Reader; Reader; Main; Main]).
    vm_compute. reflexivity.
Defined.

Lemma receiver_error_frames_witness :
  exists t s,
    exec sample_handler [Reader; Reader; Reader; Reader; Reader]
      (initial [stray_message]) = Some (t, s)
    /\ reader s = RDone
    /\ frames (reader_labels t)
       = [error_message (Exception "Unsupported message type")].
Proof.
  eexists _, _. split; [vm_compute; reflexivity|].
  split; [vm_compute; reflexivity|].
  eapply (receiver_error_frames sample_handler [stray_message]
            [Reader; Reader; Reader; Reader; Reader]).
  - vm_compute. reflexivity.
  - vm_compute. reflexivity.
Defined.
